(** * CommitQuickPick: the commit details picker of GitLens

    A shallow embedding of [src/quickpicks/commitQuickPick.ts].

    The file is host glue: it builds the list of items of a picker, binds
    the navigation keys of a keyboard scope, shows the picker and disposes
    the scope.  The embedding keeps that shape:

    - commit objects live in a [Store] indexed by references, because the
      callbacks assign [nextSha] on objects that are shared between the
      caller, the cached log and the fetched log;
    - every call into the host (log service, remotes, keyboard, picker) is
      an [Event] appended to the [trace] of the [World], and the answer of
      the host is taken from a [Host] record;
    - the two lazily evaluated closures are defunctionalised: a
      [NavClosure] holds the captured variables and [previousCommand] and
      [nextCommand] are their bodies. *)

From stdpp Require Import base option list strings gmap functions.

Open Scope string_scope.
Open Scope list_scope.
Open Scope stdpp_scope.

(** ** Data model *)

Definition Uri := string.
Definition GitFileStatus := string.
Definition Keys := string.

(** References to commit objects (object identity of the JS heap). *)
Abbreviation loc := nat.

Record GitFile := {
  fileName : string;
  status : GitFileStatus
}.

Record GitRemote := {
  remoteName : string;
  remoteUrl : string
}.

(** The fields of [GitLogCommit] the module reads or writes.  [nextSha] is
    the only field this module assigns. *)
Record GitLogCommit := {
  sha : string;
  repoPath : string;
  isStash : bool;
  author : string;
  message : string;
  files : list GitFile;
  previousSha : option string;
  nextSha : option string;
  previousFileSha : string
}.

(** [c.nextSha = v] *)
Definition with_nextSha (v : option string) (c : GitLogCommit) : GitLogCommit :=
  {| sha := sha c; repoPath := repoPath c; isStash := isStash c;
     author := author c; message := message c; files := files c;
     previousSha := previousSha c; nextSha := v;
     previousFileSha := previousFileSha c |}.

(** What [resolvePreviousFileSha] leaves behind on the commit. *)
Definition with_previousFileSha (v : string) (c : GitLogCommit) : GitLogCommit :=
  {| sha := sha c; repoPath := repoPath c; isStash := isStash c;
     author := author c; message := message c; files := files c;
     previousSha := previousSha c; nextSha := nextSha c;
     previousFileSha := v |}.

(** [GitLog]: [commits] is a JS [Map] from sha to commit object, kept in
    insertion order; [log_sha] is the optional [sha] the log is keyed at. *)
Record GitLog := {
  log_repoPath : string;
  commits : list (string * loc);
  log_sha : option string;
  truncated : bool
}.

(** [log.commits.get(key)] *)
Fixpoint commits_get (m : list (string * loc)) (key : string) : option loc :=
  match m with
  | [] => None
  | (k, v) :: rest => if decide (k = key) then Some v else commits_get rest key
  end.

(** [log.commits.values()] *)
Definition commits_values (m : list (string * loc)) : list loc := m.*2.

(** [Iterables.first] *)
Definition Iterables_first {A} (xs : list A) : option A := head xs.

(** The options object of [Container.git.getLog]. *)
Record LogQuery := {
  q_maxCount : option Z;
  q_reverse : option bool;
  q_ref : option string
}.

Inductive Commands :=
| StashApply
| StashDelete
| DiffDirectory
| CopyShaToClipboard
| CopyMessageToClipboard
| ShowQuickCommitDetails
| DiffWithPrevious.

(** Picker items and the argument payloads of their commands.  The go-back
    command stored in a payload is itself an item. *)
#[warnings="-register-all"]
Inductive QuickPickItem :=
| CommitWithFileStatusQuickPickItem
    (uri : Uri) (label description : string)
    (commit : GitLogCommit) (file_status : GitFileStatus)
| CommandQuickPickItem
    (label description : string) (command : Commands) (args : list CommandArg)
| KeyCommandQuickPickItem (command : Commands) (args : list CommandArg)
| ShowCommitInViewQuickPickItem (commit : loc)
| OpenRemotesCommandQuickPickItem
    (remotes : list GitRemote) (resource_sha : string)
    (goBackCommand : option QuickPickItem)
| OpenCommitFilesCommandQuickPickItem
    (uris : list Uri) (label description : string)
| OpenCommitFileRevisionsCommandQuickPickItem
    (uris : list Uri) (label description : string)
with CommandArg :=
| ArgUri (u : Uri)
| StashApplyCommandArgs
    (confirm deleteAfter : bool) (stashItem : loc)
    (goBackCommand : option QuickPickItem)
| StashDeleteCommandArgs
    (confirm : bool) (stashItem : loc) (goBackCommand : option QuickPickItem)
| DiffDirectoryCommandArgs (ref1 : string) (ref2 : option string)
| CopyShaToClipboardCommandArgs (sha : string)
| CopyMessageToClipboardCommandArgs (message sha : string)
| ShowQuickCommitDetailsCommandArgs
    (commit : option loc) (repoLog : option GitLog) (sha : option string)
    (goBackCommand : option QuickPickItem)
| DiffWithPreviousCommandArgs
    (commit : GitLogCommit) (preserveFocus preview : bool).

(** The command of a plain command item; the other item classes dispatch
    through their own [execute]. *)
Definition item_command (it : QuickPickItem) : option Commands :=
  match it with
  | CommandQuickPickItem _ _ c _ => Some c
  | KeyCommandQuickPickItem c _ => Some c
  | _ => None
  end.

(** [KeyCommand]: what a key is finally bound to. *)
Inductive KeyCommand :=
| KeyNoopCommand
| KeyItem (it : QuickPickItem).

(** The variables captured by the two navigation closures of [show]. *)
Record NavClosure := {
  cl_commit : loc;
  cl_repoLog : option GitLog;
  cl_goBackCommand : option QuickPickItem
}.

(** A key of a scope is bound to a static command or to a callback
    producing one. *)
Inductive KeyBinding :=
| StaticCommand (k : KeyCommand)
| PreviousCallback (env : NavClosure)
| NextCallback (env : NavClosure).

Definition is_callback (b : KeyBinding) : bool :=
  match b with
  | StaticCommand _ => false
  | PreviousCallback _ | NextCallback _ => true
  end.

Record QuickPickOptions := {
  matchOnDescription : bool;
  matchOnDetail : bool;
  placeHolder : string;
  ignoreFocusOut : bool
}.

(** ** The world: store, host calls, keyboard scopes *)

Inductive Event :=
| EvResolvePreviousFileSha (commit : loc)
| EvGetRemotes (repoPath : string)
| EvGetLog (repoPath : string) (options : LogQuery)
| EvBeginScope (scope : nat) (mapping : gmap string KeyBinding)
| EvShowQuickPick (items : list QuickPickItem) (opts : QuickPickOptions)
| EvSetKeyCommand (scope : nat) (key : Keys) (it : QuickPickItem)
| EvOnDidSelect (it : QuickPickItem)
| EvKeyPressed (key : Keys)
| EvExecuteCommand (command : Commands) (args : list CommandArg)
| EvSuperOnDidPressKey (it : QuickPickItem) (key : Keys)
| EvQuickPickClosed (pick : option QuickPickItem)
| EvScopeDispose (scope : nat).

Abbreviation Store := (loc → GitLogCommit).

Record World := {
  store : Store;
  trace : list Event;
  scopes : list (option (gmap string KeyBinding))
}.

Definition set_store (s : Store) (w : World) : World :=
  {| store := s; trace := trace w; scopes := scopes w |}.

Definition add_event (e : Event) (w : World) : World :=
  {| store := store w; trace := trace w ++ [e]; scopes := scopes w |}.

Definition set_scopes (ss : list (option (gmap string KeyBinding))) (w : World) : World :=
  {| store := store w; trace := trace w; scopes := ss |}.

(** What the user does while the picker is open. *)
Inductive UserAction :=
| Highlight (index : nat)
| PressKey (key : Keys).

(** The collaborators outside the module.  Each answer may depend on the
    world at the time of the call.  [host_getLog] also gives the store as it
    is when the awaited query resolves: the log service creates (or hands
    out cached) commit objects. *)
Record Host := {
  host_resolveReference : World → loc → string;
  host_getRemotes : World → string → list GitRemote;
  host_getLog : World → string → LogQuery → option GitLog * Store;
  host_showQuickPick :
    World → list QuickPickItem → QuickPickOptions → list UserAction * option nat;
  host_hasOnDidSelect : QuickPickItem → bool;
  config_maxListItems : Z
}.

(** ** A state monad over the world *)

Definition M (A : Type) : Type := World → A * World.

Definition ret {A} (a : A) : M A := λ w, (a, w).

Definition bind {A B} (m : M A) (k : A → M B) : M B :=
  λ w, let '(a, w1) := m w in k a w1.

Notation "'let*' x := m 'in' k" := (bind m (λ x, k))
  (at level 10, x pattern, m at level 100, k at level 200,
   format "'[v' 'let*'  x  :=  m  'in' '/' k ']'").
Notation "m ;;; k" := (bind m (λ _, k))
  (at level 100, k at level 200, right associativity).

Definition emit (e : Event) : M unit := λ w, (tt, add_event e w).

Definition gets {A} (f : World → A) : M A := λ w, (f w, w).

(** Reading the fields of the object behind a reference. *)
Definition deref (l : loc) : M GitLogCommit := λ w, (store w l, w).

(** [l.nextSha = v] *)
Definition assign_nextSha (l : loc) (v : option string) : M unit :=
  λ w, (tt, set_store (<[l := with_nextSha v (store w l)]> (store w)) w).

(** ** Helpers of other modules

    Formatting helpers, uri constructors and getters of [GitLogCommit] that
    live outside this file of the repository.  The program is parametric in
    them. *)
Class Externals := {
  Strings_pad : string → nat → nat → string;
  GlyphChars_Dash : string;
  GlyphChars_Dot : string;
  GlyphChars_Space : string;
  paths_basename : string → string;
  GitFile_getStatusOcticon : GitFileStatus → string;
  GitFile_getFormattedDirectory : GitFile → bool → string;
  GitUri_toRevisionUri : string → GitFile → string → Uri;
  GitUri_fromFile : GitFile → string → Uri;
  toFileCommit : GitLogCommit → GitFile → GitLogCommit;
  toGitUri : GitLogCommit → Uri;
  commit_uri : GitLogCommit → Uri;
  previousUri : GitLogCommit → Uri;
  nextUri : GitLogCommit → Uri;
  shortSha : GitLogCommit → string;
  previousFileShortSha : GitLogCommit → string;
  formattedDate : GitLogCommit → string;
  getShortMessage : GitLogCommit → string;
  getFormattedDiffStatus : GitLogCommit → string;
  getQuickPickIgnoreFocusOut : bool
}.

(** [Arrays.filterMap]: map, dropping the undefined results. *)
Definition Arrays_filterMap {A B} (xs : list A) (f : A → option B) : list B :=
  omap f xs.

(** [items.splice(index, 0, x)]: insert [x] before position [index]; a
    start beyond the end of the array is clamped to its length. *)
Definition splice_insert {A} (index : nat) (x : A) (items : list A) : list A :=
  take index items ++ x :: drop index items.

Section Program.
Context `{Externals} (host : Host).

(** *** Awaited host calls *)

(** [await commit.resolvePreviousFileSha()], a method of [GitLogCommit]
    outside this file: the host resolves the reference and the commit keeps
    it as its [previousFileSha]; no other field changes. *)
Definition resolvePreviousFileSha (commit : loc) : M unit :=
  λ w, let w1 := add_event (EvResolvePreviousFileSha commit) w in
       let r := host_resolveReference host w1 commit in
       (tt, set_store (<[commit := with_previousFileSha r (store w1 commit)]> (store w1)) w1).

(** [await Container.git.getRemotes(repoPath)] *)
Definition getRemotes (path : string) : M (list GitRemote) :=
  λ w, let w1 := add_event (EvGetRemotes path) w in
       (host_getRemotes host w1 path, w1).

(** [await Container.git.getLog(repoPath, options)] *)
Definition getLog (path : string) (options : LogQuery) : M (option GitLog) :=
  λ w, let w1 := add_event (EvGetLog path options) w in
       let '(log, s) := host_getLog host w1 path options in
       (log, set_store s w1).

(** *** The navigation callbacks (lines 317-378) *)

(** [log && log.commits.get(key)] *)
Definition log_get (log : option GitLog) (key : string) : option loc :=
  match log with
  | Some lg => commits_get (commits lg) key
  | None => None
  end.

(** [c === undefined || c.previousSha === undefined] *)
Definition previous_unresolved (c : option loc) : M bool :=
  match c with
  | None => ret true
  | Some l => let* cc := deref l in ret (bool_decide (previousSha cc = None))
  end.

(** [c === undefined || c.nextSha === undefined] *)
Definition next_unresolved (c : option loc) : M bool :=
  match c with
  | None => ret true
  | Some l => let* cc := deref l in ret (bool_decide (nextSha cc = None))
  end.

(** The body of the closure bound to [previousCommand]. *)
Definition previousCommand (env : NavClosure) : M KeyCommand :=
  let commit := cl_commit env in
  let log := cl_repoLog env in
  let* cv := deref commit in
  let c := log_get log (sha cv) in
  let* unresolved := previous_unresolved c in
  let* (log, c) :=
    (if unresolved : bool then
       let* cv := deref commit in
       let* log := getLog (repoPath cv)
                     {| q_maxCount := Some (config_maxListItems host);
                        q_reverse := None;
                        q_ref := Some (sha cv) |} in
       let* cv := deref commit in
       let c := log_get log (sha cv) in
       match c with
       | Some l =>
           (* Copy over next info, since it is trustworthy at this point *)
           let* cv := deref commit in
           assign_nextSha l (nextSha cv)
       | None => ret tt
       end;;;
       ret (log, c)
     else ret (log, c)) in
  let* unresolved := previous_unresolved c in
  if unresolved : bool then ret KeyNoopCommand
  else
    match c with
    | None => ret KeyNoopCommand
    | Some l =>
        let* cc := deref l in
        ret (KeyItem (KeyCommandQuickPickItem ShowQuickCommitDetails
               [ArgUri (previousUri cc);
                ShowQuickCommitDetailsCommandArgs None log (previousSha cc)
                  (cl_goBackCommand env)]))
    end.

(** The body of the closure bound to [nextCommand]. *)
Definition nextCommand (env : NavClosure) : M KeyCommand :=
  let commit := cl_commit env in
  let log := cl_repoLog env in
  let* cv := deref commit in
  let c := log_get log (sha cv) in
  let* unresolved := next_unresolved c in
  let* (log, c) :=
    (if unresolved : bool then
       let log := None in
       let c := None in
       (* Try to find the next commit *)
       let* cv := deref commit in
       let* nextLog := getLog (repoPath cv)
                         {| q_maxCount := Some 1%Z;
                            q_reverse := Some true;
                            q_ref := Some (sha cv) |} in
       let next :=
         match nextLog with
         | Some lg => Iterables_first (commits_values (commits lg))
         | None => None
         end in
       match next with
       | Some n =>
           let* nv := deref n in
           let* cv := deref commit in
           if bool_decide (sha nv ≠ sha cv) then
             let c := Some commit in
             assign_nextSha commit (Some (sha nv));;;
             ret (log, c)
           else ret (log, c)
       | None => ret (log, c)
       end
     else ret (log, c)) in
  let* unresolved := next_unresolved c in
  if unresolved : bool then ret KeyNoopCommand
  else
    match c with
    | None => ret KeyNoopCommand
    | Some l =>
        let* cc := deref l in
        ret (KeyItem (KeyCommandQuickPickItem ShowQuickCommitDetails
               [ArgUri (nextUri cc);
                ShowQuickCommitDetailsCommandArgs None log (nextSha cc)
                  (cl_goBackCommand env)]))
    end.

(** *** Item classes of this file (lines 38-107) *)

(** [new CommitWithFileStatusQuickPickItem(commit, file)] *)
Definition new_CommitWithFileStatusQuickPickItem
    (commit : GitLogCommit) (file : GitFile) : QuickPickItem :=
  let octicon := GitFile_getStatusOcticon (status file) in
  let description := GitFile_getFormattedDirectory file true in
  CommitWithFileStatusQuickPickItem
    (GitUri_toRevisionUri (sha commit) file (repoPath commit))
    (Strings_pad octicon 4 2 +:+ " " +:+ paths_basename (fileName file))
    description
    (toFileCommit commit file)
    (status file).

(** [new OpenCommitFilesCommandQuickPickItem(commit)] *)
Definition new_OpenCommitFilesCommandQuickPickItem
    (commit : GitLogCommit) : QuickPickItem :=
  let repoPath := repoPath commit in
  let uris := Arrays_filterMap (files commit) (λ f, Some (GitUri_fromFile f repoPath)) in
  OpenCommitFilesCommandQuickPickItem uris "$(file-symlink-file) Open Files" "".

(** [new OpenCommitFileRevisionsCommandQuickPickItem(commit)] *)
Definition new_OpenCommitFileRevisionsCommandQuickPickItem
    (commit : GitLogCommit) : QuickPickItem :=
  let uris :=
    Arrays_filterMap (files commit) (λ f,
      Some (GitUri_toRevisionUri
              (if decide (status f = "D") then previousFileSha commit else sha commit)
              f (repoPath commit))) in
  OpenCommitFileRevisionsCommandQuickPickItem uris
    "$(file-symlink-file) Open Revisions"
    (Strings_pad GlyphChars_Dash 2 3 +:+ " in " +:+ GlyphChars_Space
       +:+ "$(git-commit) " +:+ shortSha commit).

(** [CommitWithFileStatusQuickPickItem.onDidPressKey]; the other item
    classes inherit theirs. *)
Definition onDidPressKey (it : QuickPickItem) (key : Keys) : M unit :=
  match it with
  | CommitWithFileStatusQuickPickItem _ _ _ commit _ =>
      match previousSha commit with
      | None => emit (EvSuperOnDidPressKey it key)
      | Some _ =>
          emit (EvExecuteCommand DiffWithPrevious
                  [ArgUri (toGitUri commit);
                   DiffWithPreviousCommandArgs commit true false])
      end
  | _ => emit (EvSuperOnDidPressKey it key)
  end.

(** *** The items of the picker (lines 119-283) *)

Definition stashApplyItem (commit : loc) (cv : GitLogCommit)
    (currentCommand : option QuickPickItem) : QuickPickItem :=
  CommandQuickPickItem
    "$(git-pull-request) Apply Stashed Changes"
    (Strings_pad GlyphChars_Dash 2 3 +:+ " " +:+ getShortMessage cv)
    StashApply
    [StashApplyCommandArgs true false commit currentCommand].

Definition stashDeleteItem (commit : loc) (cv : GitLogCommit)
    (currentCommand : option QuickPickItem) : QuickPickItem :=
  CommandQuickPickItem
    "$(x) Delete Stashed Changes"
    (Strings_pad GlyphChars_Dash 2 3 +:+ " " +:+ getShortMessage cv)
    StashDelete
    [StashDeleteCommandArgs true commit currentCommand].

Definition diffWithPreviousRevisionItem (cv : GitLogCommit) : QuickPickItem :=
  CommandQuickPickItem
    "$(git-compare) Open Directory Compare with Previous Revision"
    (Strings_pad GlyphChars_Dash 2 3 +:+ " $(git-commit) "
       +:+ previousFileShortSha cv +:+ " " +:+ GlyphChars_Space
       +:+ " $(git-compare) " +:+ GlyphChars_Space +:+ " $(git-commit) "
       +:+ shortSha cv)
    DiffDirectory
    [ArgUri (commit_uri cv);
     DiffDirectoryCommandArgs (previousFileSha cv) (Some (sha cv))].

Definition diffWithWorkingTreeItem (cv : GitLogCommit) (uri : Uri) : QuickPickItem :=
  CommandQuickPickItem
    "$(git-compare) Open Directory Compare with Working Tree"
    (Strings_pad GlyphChars_Dash 2 3 +:+ " $(git-commit) " +:+ shortSha cv
       +:+ " " +:+ GlyphChars_Space +:+ " $(git-compare) " +:+ GlyphChars_Space
       +:+ " $(file-directory) Working Tree")
    DiffDirectory
    [ArgUri uri; DiffDirectoryCommandArgs (sha cv) None].

Definition copyShaItem (cv : GitLogCommit) (uri : Uri) : QuickPickItem :=
  CommandQuickPickItem
    "$(clippy) Copy Commit ID to Clipboard"
    (Strings_pad GlyphChars_Dash 2 3 +:+ " " +:+ shortSha cv)
    CopyShaToClipboard
    [ArgUri uri; CopyShaToClipboardCommandArgs (sha cv)].

Definition copyMessageItem (cv : GitLogCommit) (uri : Uri) : QuickPickItem :=
  CommandQuickPickItem
    "$(clippy) Copy Commit Message to Clipboard"
    (Strings_pad GlyphChars_Dash 2 3 +:+ " " +:+ getShortMessage cv)
    CopyMessageToClipboard
    [ArgUri uri; CopyMessageToClipboardCommandArgs (message cv) (sha cv)].

Definition changedFilesItem (commit : loc) (cv : GitLogCommit) (uri : Uri)
    (goBackCommand : option QuickPickItem) (repoLog : option GitLog) : QuickPickItem :=
  CommandQuickPickItem
    "Changed Files"
    (getFormattedDiffStatus cv)
    ShowQuickCommitDetails
    [ArgUri uri;
     ShowQuickCommitDetailsCommandArgs (Some commit) repoLog (Some (sha cv))
       goBackCommand].

(** The list handed to the picker.  [index] is threaded as in the source:
    every [items.splice(index++, 0, x)] inserts at [index] and advances it.
    The fields of the commit are read once, on entry: nothing awaited here
    writes to the store. *)
Definition buildItems (commit : loc) (uri : Uri)
    (goBackCommand currentCommand : option QuickPickItem)
    (repoLog : option GitLog) : M (list QuickPickItem) :=
  let* cv := deref commit in
  let items := map (new_CommitWithFileStatusQuickPickItem cv) (files cv) in
  let stash := isStash cv in
  let index := 0 in
  let* (items, index) :=
    (if stash then
       let items := splice_insert index (stashApplyItem commit cv currentCommand) items in
       let index := S index in
       let items := splice_insert index (stashDeleteItem commit cv currentCommand) items in
       let index := S index in
       let items := splice_insert index (ShowCommitInViewQuickPickItem commit) items in
       let index := S index in
       ret (items, index)
     else
       let items := splice_insert index (ShowCommitInViewQuickPickItem commit) items in
       let index := S index in
       let* remotes := getRemotes (repoPath cv) in
       if decide (length remotes ≠ 0) then
         let items :=
           splice_insert index
             (OpenRemotesCommandQuickPickItem remotes (sha cv) currentCommand) items in
         let index := S index in
         ret (items, index)
       else ret (items, index)) in
  let items := splice_insert index (new_OpenCommitFilesCommandQuickPickItem cv) items in
  let index := S index in
  let items := splice_insert index (new_OpenCommitFileRevisionsCommandQuickPickItem cv) items in
  let index := S index in
  let items := splice_insert index (diffWithPreviousRevisionItem cv) items in
  let index := S index in
  let items := splice_insert index (diffWithWorkingTreeItem cv uri) items in
  let index := S index in
  let (items, index) :=
    if negb stash then
      (splice_insert index (copyShaItem cv uri) items, S index)
    else (items, index) in
  let items := splice_insert index (copyMessageItem cv uri) items in
  let index := S index in
  let items := splice_insert index (changedFilesItem commit cv uri goBackCommand repoLog) items in
  let index := S index in
  let items :=
    match goBackCommand with
    | Some back => splice_insert 0 back items
    | None => items
    end in
  ret items.

(** *** Navigation bindings (lines 285-380) *)

(** [repoLog !== undefined && !repoLog.truncated && repoLog.sha === undefined] *)
Definition full_history (repoLog : option GitLog) : bool :=
  match repoLog with
  | Some lg => negb (truncated lg) && bool_decide (log_sha lg = None)
  | None => false
  end.

Definition navigationCommands (commit : loc) (cv : GitLogCommit)
    (goBackCommand : option QuickPickItem) (repoLog : option GitLog)
    : option KeyBinding * option KeyBinding :=
  let previousCommand := None in
  let nextCommand := None in
  if negb (isStash cv) then
    (* If we have the full history, we are good *)
    if full_history repoLog then
      let previousCommand :=
        match previousSha cv with
        | None => None
        | Some _ =>
            Some (StaticCommand (KeyItem
              (KeyCommandQuickPickItem ShowQuickCommitDetails
                 [ArgUri (previousUri cv);
                  ShowQuickCommitDetailsCommandArgs None repoLog (previousSha cv)
                    goBackCommand])))
        end in
      let nextCommand :=
        match nextSha cv with
        | None => None
        | Some _ =>
            Some (StaticCommand (KeyItem
              (KeyCommandQuickPickItem ShowQuickCommitDetails
                 [ArgUri (nextUri cv);
                  ShowQuickCommitDetailsCommandArgs None repoLog (nextSha cv)
                    goBackCommand])))
        end in
      (previousCommand, nextCommand)
    else
      let env := {| cl_commit := commit; cl_repoLog := repoLog;
                    cl_goBackCommand := goBackCommand |} in
      (Some (PreviousCallback env), Some (NextCallback env))
  else (previousCommand, nextCommand).

(** The object literal passed to [beginScope]; a property whose value is
    undefined binds nothing. *)
Definition keyMapping (goBackCommand : option QuickPickItem)
    (previousCommand nextCommand : option KeyBinding) : gmap string KeyBinding :=
  partial_alter (λ _, nextCommand) "."
    (partial_alter (λ _, previousCommand) ","
       (partial_alter (λ _, StaticCommand ∘ KeyItem <$> goBackCommand) "left" ∅)).

(** *** The keyboard scope *)

(** Modelled from the spec: the keybinding-scope API of [Container.keyboard]
    (its module is not part of this file).  The spec describes it as "a
    temporary host-managed mapping from key to action, active while the
    picker is open" that "binds single keys to either a static action or a
    callback producing one".  A scope is a slot of [scopes]: [beginScope]
    opens a new slot holding the mapping, [setKeyCommand] rebinds one key of
    it, [scope_dispose] empties the slot. *)
Definition beginScope (mapping : gmap string KeyBinding) : M nat :=
  λ w, let scope := length (scopes w) in
       (scope,
        set_scopes (scopes w ++ [Some mapping])
          (add_event (EvBeginScope scope mapping) w)).

(** Modelled from the spec: [scope.setKeyCommand(key, item)] rebinds one
    key of an open scope to a static action. *)
Definition setKeyCommand (scope : nat) (key : Keys) (it : QuickPickItem) : M unit :=
  λ w, (tt,
        set_scopes
          (alter (fmap (insert key (StaticCommand (KeyItem it)))) scope (scopes w))
          (add_event (EvSetKeyCommand scope key it) w)).

(** Modelled from the spec: [scope.dispose()] ends the scope; its mapping
    is no longer active. *)
Definition scope_dispose (scope : nat) : M unit :=
  λ w, (tt,
        set_scopes (<[scope := None]> (scopes w))
          (add_event (EvScopeDispose scope) w)).

(** The mapping of a scope, while it is open. *)
Definition scope_mapping (scope : nat) (w : World) : option (gmap string KeyBinding) :=
  mjoin (scopes w !! scope).

(** What a key of a scope is bound to. *)
Definition scope_binding (scope : nat) (key : Keys) (w : World) : option KeyBinding :=
  scope_mapping scope w ≫= (λ m, m !! key).

(** Modelled from the spec: [KeyCommand.onDidPressKey] of the keyboard
    module; an item runs its own handler, the no-op action does nothing. *)
Definition KeyCommand_onDidPressKey (cmd : KeyCommand) (key : Keys) : M unit :=
  match cmd with
  | KeyNoopCommand => ret tt
  | KeyItem it => onDidPressKey it key
  end.

(** Modelled from the spec: a key pressed while the scope is open runs the
    action bound to it, calling the callback first when the key is bound to
    one. *)
Definition pressKey (scope : nat) (key : Keys) : M unit :=
  emit (EvKeyPressed key);;;
  let* b := gets (scope_binding scope key) in
  match b with
  | None => ret tt
  | Some (StaticCommand cmd) => KeyCommand_onDidPressKey cmd key
  | Some (PreviousCallback env) =>
      let* cmd := previousCommand env in KeyCommand_onDidPressKey cmd key
  | Some (NextCallback env) =>
      let* cmd := nextCommand env in KeyCommand_onDidPressKey cmd key
  end.

(** *** The picker session (lines 388-401) *)

(** The [onDidSelectItem] handler given to the picker. *)
Definition onDidSelectItem (scope : nat) (item : QuickPickItem) : M unit :=
  setKeyCommand scope "right" item;;;
  if host_hasOnDidSelect host item then emit (EvOnDidSelect item) else ret tt.

Definition userAction (scope : nat) (items : list QuickPickItem)
    (a : UserAction) : M unit :=
  match a with
  | Highlight i =>
      match items !! i with
      | Some it => onDidSelectItem scope it
      | None => ret tt
      end
  | PressKey key => pressKey scope key
  end.

Fixpoint session (scope : nat) (items : list QuickPickItem)
    (actions : list UserAction) : M unit :=
  match actions with
  | [] => ret tt
  | a :: rest => userAction scope items a;;; session scope items rest
  end.

(** [await window.showQuickPick(items, options)]: the host shows the list,
    the user acts on it, and the promise resolves to one of the items or to
    undefined when the picker is dismissed. *)
Definition showQuickPick (scope : nat) (items : list QuickPickItem)
    (opts : QuickPickOptions) : M (option QuickPickItem) :=
  emit (EvShowQuickPick items opts);;;
  let* (actions, selection) := gets (λ w, host_showQuickPick host w items opts) in
  session scope items actions;;;
  let pick := selection ≫= (λ i, items !! i) in
  emit (EvQuickPickClosed pick);;;
  ret pick.

Definition quickPickOptions (cv : GitLogCommit) : QuickPickOptions :=
  {| matchOnDescription := true;
     matchOnDetail := true;
     placeHolder :=
       shortSha cv +:+ " " +:+ Strings_pad GlyphChars_Dot 1 1 +:+ " "
         +:+ (if decide (author cv = "") then "" else author cv +:+ ", ")
         +:+ formattedDate cv +:+ " " +:+ Strings_pad GlyphChars_Dot 1 1
         +:+ " " +:+ getShortMessage cv;
     ignoreFocusOut := getQuickPickIgnoreFocusOut |}.

(** *** [CommitQuickPick.show] (lines 110-406) *)

Definition show (commit : loc) (uri : Uri)
    (goBackCommand currentCommand : option QuickPickItem)
    (repoLog : option GitLog) : M (option QuickPickItem) :=
  resolvePreviousFileSha commit;;;
  let* items := buildItems commit uri goBackCommand currentCommand repoLog in
  let* cv := deref commit in
  let (previousCommand, nextCommand) :=
    navigationCommands commit cv goBackCommand repoLog in
  let* scope := beginScope (keyMapping goBackCommand previousCommand nextCommand) in
  let* cv := deref commit in
  let* pick := showQuickPick scope items (quickPickOptions cv) in
  scope_dispose scope;;;
  ret pick.

End Program.

(** ** Vocabulary of the statements *)

(** The events a run appended to the trace. *)
Definition new_events (w w' : World) : list Event :=
  drop (length (trace w)) (trace w').

(** The log queries among some events, in order. *)
Definition log_queries (evs : list Event) : list (string * LogQuery) :=
  omap (λ e, match e with EvGetLog p q => Some (p, q) | _ => None end) evs.

(** The mappings given to [beginScope] among some events. *)
Definition begun_scopes (evs : list Event) : list (nat * gmap string KeyBinding) :=
  omap (λ e, match e with EvBeginScope h m => Some (h, m) | _ => None end) evs.

(** The item lists shown in a picker among some events. *)
Definition shown_pickers (evs : list Event) : list (list QuickPickItem) :=
  omap (λ e, match e with EvShowQuickPick items _ => Some items | _ => None end) evs.

(** The commit object a log holds for the commit of a closure. *)
Definition log_commit (env : NavClosure) (log : option GitLog) (w : World) : option loc :=
  log_get log (sha (store w (cl_commit env))).

(** The previous sha the cached log supplies for the commit: [None] when
    there is no cached log, when it does not contain the commit, or when the
    cached commit has no [previousSha]. *)
Definition cached_previous (env : NavClosure) (w : World) : option string :=
  log_commit env (cl_repoLog env) w ≫= (λ l, previousSha (store w l)).

Definition cached_next (env : NavClosure) (w : World) : option string :=
  log_commit env (cl_repoLog env) w ≫= (λ l, nextSha (store w l)).

(** [nextLog && Iterables.first(nextLog.commits.values())] *)
Definition first_commit (log : option GitLog) : option loc :=
  log ≫= (λ lg, Iterables_first (commits_values (commits lg))).

(** The command built from a resolved neighbour. *)
Definition navigate (uri : Uri) (log : option GitLog) (target : option string)
    (goBackCommand : option QuickPickItem) : KeyCommand :=
  KeyItem (KeyCommandQuickPickItem ShowQuickCommitDetails
    [ArgUri uri; ShowQuickCommitDetailsCommandArgs None log target goBackCommand]).

(** The sha a navigation command leads to. *)
Definition navigation_target (cmd : KeyCommand) : option string :=
  match cmd with
  | KeyItem (KeyCommandQuickPickItem _ [_; ShowQuickCommitDetailsCommandArgs _ _ target _]) =>
      target
  | _ => None
  end.

(** The events that occur while a picker is open: key presses, highlighted
    items and what the bound actions do.  Opening or disposing a scope and
    opening or closing a picker are not among them. *)
Definition session_event (e : Event) : bool :=
  match e with
  | EvGetLog _ _ | EvSetKeyCommand _ _ _ | EvOnDidSelect _ | EvKeyPressed _
  | EvExecuteCommand _ _ | EvSuperOnDidPressKey _ _ => true
  | _ => false
  end.

(** [w'] is reached from [w] by session events only, with the same scopes
    open and every key of scope [scope] other than 'right' bound as before. *)
Definition stable (scope : nat) (w w' : World) : Prop :=
  (∃ evs, trace w' = trace w ++ evs ∧ forallb session_event evs = true) ∧
  length (scopes w') = length (scopes w) ∧
  ∀ m, scope_mapping scope w = Some m →
       ∃ m', scope_mapping scope w' = Some m' ∧
             ∀ k, k ≠ "right" → m' !! k = m !! k.

Section Vocabulary.
Context `{Externals} (host : Host).

(** The fallback queries of the two callbacks, as issued in world [w]. *)
Definition previous_query (env : NavClosure) (w : World) : string * LogQuery :=
  let cv := store w (cl_commit env) in
  (repoPath cv,
   {| q_maxCount := Some (config_maxListItems host);
      q_reverse := None;
      q_ref := Some (sha cv) |}).

Definition next_query (env : NavClosure) (w : World) : string * LogQuery :=
  let cv := store w (cl_commit env) in
  (repoPath cv,
   {| q_maxCount := Some 1%Z; q_reverse := Some true; q_ref := Some (sha cv) |}).

(** The answer to a query issued in world [w]: the log and the world in
    which the callback resumes. *)
Definition answer (q : string * LogQuery) (w : World) : option GitLog * World :=
  getLog host q.1 q.2 w.

(** The commit object as [show] reads it, once its previous file sha has
    been resolved. *)
Definition resolved_commit (commit : loc) (w : World) : GitLogCommit :=
  store (resolvePreviousFileSha host commit w).2 commit.

(** [show] up to the moment the picker is on screen: the scope it opened,
    the items and the options it handed to the picker. *)
Definition show_until_open (commit : loc) (uri : Uri)
    (goBackCommand currentCommand : option QuickPickItem)
    (repoLog : option GitLog) : M (nat * list QuickPickItem * QuickPickOptions) :=
  resolvePreviousFileSha host commit;;;
  let* items := buildItems host commit uri goBackCommand currentCommand repoLog in
  let* cv := deref commit in
  let (previousCommand, nextCommand) :=
    navigationCommands commit cv goBackCommand repoLog in
  let* scope := beginScope (keyMapping goBackCommand previousCommand nextCommand) in
  let* cv := deref commit in
  emit (EvShowQuickPick items (quickPickOptions cv));;;
  ret (scope, items, quickPickOptions cv).

End Vocabulary.

(** ** Containment in a log, stated over its entries *)

(** The object a [Map] holds under [key]: the value of the first entry with
    that key (a [Map] has at most one). *)
Definition holds_for (m : list (string * loc)) (key : string) (l : loc) : Prop :=
  ∃ before after, m = before ++ (key, l) :: after ∧ ∀ l', (key, l') ∉ before.

(** The cached log of a closure has no entry for the commit's sha: there is
    no cached log, or none of its entries has that sha as its key. *)
Definition cache_lacks_commit (env : NavClosure) (w : World) : Prop :=
  cl_repoLog env = None ∨
  ∃ lg, cl_repoLog env = Some lg ∧
        ∀ l, (sha (store w (cl_commit env)), l) ∉ commits lg.

(** The cached log of a closure holds object [l] under the commit's sha. *)
Definition cache_holds (env : NavClosure) (w : World) (l : loc) : Prop :=
  ∃ lg, cl_repoLog env = Some lg ∧
        holds_for (commits lg) (sha (store w (cl_commit env))) l.

(** ** Vocabulary of the further properties *)

(** [get sha()] of [CommitWithFileStatusQuickPickItem] (lines 56-58). *)
Definition file_item_sha (it : QuickPickItem) : option string :=
  match it with
  | CommitWithFileStatusQuickPickItem _ _ _ commit _ => Some (sha commit)
  | _ => None
  end.

Definition is_file_item (it : QuickPickItem) : bool :=
  match it with
  | CommitWithFileStatusQuickPickItem _ _ _ _ _ => true
  | _ => false
  end.

(** The uri a file item opens. *)
Definition file_item_uri (it : QuickPickItem) : option Uri :=
  match it with
  | CommitWithFileStatusQuickPickItem uri _ _ _ _ => Some uri
  | _ => None
  end.

(** The uris an open-all item opens. *)
Definition open_all_uris (it : QuickPickItem) : list Uri :=
  match it with
  | OpenCommitFilesCommandQuickPickItem uris _ _ => uris
  | OpenCommitFileRevisionsCommandQuickPickItem uris _ _ => uris
  | _ => []
  end.

(** The repositories whose remotes were asked for among some events. *)
Definition remote_queries (evs : list Event) : list string :=
  omap (λ e, match e with EvGetRemotes p => Some p | _ => None end) evs.

(** The keys pressed among some user actions. *)
Definition pressed_keys (actions : list UserAction) : list Keys :=
  omap (λ a, match a with PressKey k => Some k | Highlight _ => None end) actions.

(** [c'] is [c] up to its [nextSha]. *)
Definition same_but_nextSha (c c' : GitLogCommit) : Prop :=
  sha c' = sha c ∧ repoPath c' = repoPath c ∧ isStash c' = isStash c ∧
  author c' = author c ∧ message c' = message c ∧ files c' = files c ∧
  previousSha c' = previousSha c ∧ previousFileSha c' = previousFileSha c.

(** A log service that only reads: when a query resolves, the commit
    objects are as they were when it was issued. *)
Definition host_keeps_store (host : Host) : Prop :=
  ∀ w path options, (host_getLog host w path options).2 = store w.

(** No key of the mapping is bound to a callback, except possibly keys the
    user does not press in [actions]. *)
Definition callbacks_unpressed (m : gmap string KeyBinding)
    (actions : list UserAction) : Prop :=
  ∀ k b, m !! k = Some b → is_callback b = true → k ∉ pressed_keys actions.

(** [w'] is reached from [w] without asking the log service and without
    writing to any commit object. *)
Definition silent (w w' : World) : Prop :=
  store w' = store w ∧
  ∃ evs, trace w' = trace w ++ evs ∧ log_queries evs = [].

(** Every commit object of [w'] is the one of [w] up to its [nextSha]. *)
Definition only_nextSha (w w' : World) : Prop :=
  ∀ l, same_but_nextSha (store w l) (store w' l).

(** The scopes of [w'] are those of [w], except possibly the one in slot
    [scope]. *)
Definition other_scopes_kept (scope : nat) (w w' : World) : Prop :=
  ∃ f, scopes w' = alter f scope (scopes w).

Section MoreVocabulary.
Context `{Externals} (host : Host).

(** The remotes [show] is given for a commit that is not a stash. *)
Definition remotes_answer (commit : loc) (w : World) : list GitRemote :=
  let w0 := (resolvePreviousFileSha host commit w).2 in
  let path := repoPath (store w0 commit) in
  host_getRemotes host (add_event (EvGetRemotes path) w0) path.

(** The world in which the picker of [show] closes: the world it was opened
    in, after everything the user did. *)
Definition show_until_closed (commit : loc) (uri : Uri)
    (goBackCommand currentCommand : option QuickPickItem)
    (repoLog : option GitLog) (w : World) : World :=
  let '(scope, items, opts, w1) :=
    show_until_open host commit uri goBackCommand currentCommand repoLog w in
  let '(actions, _) := host_showQuickPick host w1 items opts in
  (session host scope items actions w1).2.

(** What the user does in the picker of [show]. *)
Definition show_actions (commit : loc) (uri : Uri)
    (goBackCommand currentCommand : option QuickPickItem)
    (repoLog : option GitLog) (w : World) : list UserAction :=
  let '(_, items, opts, w1) :=
    show_until_open host commit uri goBackCommand currentCommand repoLog w in
  (host_showQuickPick host w1 items opts).1.

End MoreVocabulary.

(** ** A concrete host, for running the model *)

Module Demo.

Definition externals : Externals := {|
  Strings_pad := λ s _ _, s;
  GlyphChars_Dash := "-";
  GlyphChars_Dot := ".";
  GlyphChars_Space := " ";
  paths_basename := λ s, s;
  GitFile_getStatusOcticon := λ s, s;
  GitFile_getFormattedDirectory := λ f _, fileName f;
  GitUri_toRevisionUri := λ s f r, r +:+ "/" +:+ fileName f +:+ "@" +:+ s;
  GitUri_fromFile := λ f r, r +:+ "/" +:+ fileName f;
  toFileCommit := λ c _, c;
  toGitUri := λ c, repoPath c;
  commit_uri := λ c, repoPath c;
  previousUri := λ c, repoPath c +:+ "@" +:+ default "" (previousSha c);
  nextUri := λ c, repoPath c +:+ "@" +:+ default "" (nextSha c);
  shortSha := λ c, sha c;
  previousFileShortSha := λ c, previousFileSha c;
  formattedDate := λ _, "today";
  getShortMessage := λ c, message c;
  getFormattedDiffStatus := λ _, "+1 ~0 -0";
  getQuickPickIgnoreFocusOut := false
|}.

Definition commit_of (s : string) (stash : bool) (p n : option string) : GitLogCommit :=
  {| sha := s; repoPath := "/repo"; isStash := stash; author := "ann";
     message := "fix"; files := [ {| fileName := "a.ts"; status := "M" |} ];
     previousSha := p; nextSha := n; previousFileSha := s +:+ "^" |}.

(** Object 0 is the commit "b" as the caller holds it, object 1 a fetched
    copy of it that knows its parent "a", object 2 the newer commit "c",
    object 3 a stash. *)
Definition objects : Store := λ l,
  match l with
  | 0 => commit_of "b" false None (Some "c")
  | 1 => commit_of "b" false (Some "a") None
  | 2 => commit_of "c" false (Some "b") None
  | 3 => commit_of "s" true None None
  | _ => commit_of "b" false None None
  end.

Definition log_of (entries : list (string * loc)) (key : option string)
    (cut : bool) : GitLog :=
  {| log_repoPath := "/repo"; commits := entries; log_sha := key; truncated := cut |}.

(** A host whose log service answers forward queries with [forward] and
    reverse queries with [backward], and whose user performs [actions] and
    then accepts [selection]. *)
Definition host (forward backward : option GitLog)
    (actions : list UserAction) (selection : option nat) : Host :=
  {| host_resolveReference := λ _ _, "b^";
     host_getRemotes := λ _ _, [];
     host_getLog := λ w _ q,
       (match q_reverse q with Some true => backward | _ => forward end, store w);
     host_showQuickPick := λ _ _ _, (actions, selection);
     host_hasOnDidSelect := λ _, false;
     config_maxListItems := 200 |}.

Definition world : World := {| store := objects; trace := []; scopes := [] |}.

Definition closure (commit : loc) (repoLog : option GitLog) : NavClosure :=
  {| cl_commit := commit; cl_repoLog := repoLog; cl_goBackCommand := None |}.

End Demo.

(** A picker that is already open: one scope with an empty mapping, and a
    list holding a file item of a commit that has a parent. *)
Module DemoSession.

Definition world : World :=
  {| store := Demo.objects; trace := []; scopes := [Some ∅] |}.

Definition file_item : QuickPickItem :=
  @new_CommitWithFileStatusQuickPickItem Demo.externals
    (Demo.commit_of "b" false (Some "a") None)
    {| fileName := "a.ts"; status := "M" |}.

Definition items : list QuickPickItem :=
  [ShowCommitInViewQuickPickItem 1; file_item].

End DemoSession.

Ltac run_m :=
  unfold answer in *;
  unfold bind, ret, deref, gets, emit, assign_nextSha, getLog in *;
  cbn [fst snd] in *.

Section Facts.
Context `{Externals} (host : Host).

Lemma previous_unresolved_run c w :
  previous_unresolved c w =
    (bool_decide (c ≫= (λ l, previousSha (store w l)) = None), w).
Proof. destruct c; reflexivity. Qed.

Lemma next_unresolved_run c w :
  next_unresolved c w =
    (bool_decide (c ≫= (λ l, nextSha (store w l)) = None), w).
Proof. destruct c; reflexivity. Qed.

Lemma previousCommand_cached env w l p :
  log_commit env (cl_repoLog env) w = Some l →
  previousSha (store w l) = Some p →
  previousCommand host env w =
    (navigate (previousUri (store w l)) (cl_repoLog env) (Some p)
       (cl_goBackCommand env), w).
Proof.
  unfold log_commit. intros Hl Hp.
  unfold previousCommand, navigate. run_m. simpl.
  rewrite !previous_unresolved_run, Hl. simpl. rewrite Hp. simpl.
  rewrite ?previous_unresolved_run. simpl. rewrite ?Hp. simpl.
  by rewrite Hp.
Qed.

Lemma previousCommand_fallback env w :
  cached_previous env w = None →
  previousCommand host env w =
    let '(log1, w1) := answer host (previous_query host env w) w in
    match log_commit env log1 w1 with
    | None => (KeyNoopCommand, w1)
    | Some l =>
        let w2 :=
          set_store (<[l := with_nextSha (nextSha (store w1 (cl_commit env)))
                              (store w1 l)]> (store w1)) w1 in
        (match previousSha (store w2 l) with
         | None => KeyNoopCommand
         | Some p =>
             navigate (previousUri (store w2 l)) log1 (Some p) (cl_goBackCommand env)
         end, w2)
    end.
Proof.
  unfold cached_previous, log_commit, previous_query. intros Hc.
  unfold previousCommand, navigate. run_m. simpl.
  rewrite previous_unresolved_run, Hc. simpl.
  destruct (host_getLog _ _ _ _) as [log1 s1]. simpl.
  destruct (log_get log1 _) as [l|]; simpl.
  - destruct (previousSha _) as [p|] eqn:Hp; simpl; by rewrite ?Hp.
  - reflexivity.
Qed.

Lemma nextCommand_cached env w l n :
  log_commit env (cl_repoLog env) w = Some l →
  nextSha (store w l) = Some n →
  nextCommand host env w =
    (navigate (nextUri (store w l)) (cl_repoLog env) (Some n)
       (cl_goBackCommand env), w).
Proof.
  unfold log_commit. intros Hl Hn.
  unfold nextCommand, navigate. run_m. simpl.
  rewrite !next_unresolved_run, Hl. simpl. rewrite Hn. simpl.
  rewrite ?next_unresolved_run. simpl. rewrite ?Hn. simpl.
  by rewrite Hn.
Qed.

Lemma nextCommand_fallback env w :
  cached_next env w = None →
  nextCommand host env w =
    let commit := cl_commit env in
    let '(nextLog, w1) := answer host (next_query env w) w in
    match first_commit nextLog with
    | Some n =>
        if bool_decide (sha (store w1 n) ≠ sha (store w1 commit)) then
          let w2 :=
            set_store (<[commit := with_nextSha (Some (sha (store w1 n)))
                                     (store w1 commit)]> (store w1)) w1 in
          (navigate (nextUri (store w2 commit)) None (Some (sha (store w1 n)))
             (cl_goBackCommand env), w2)
        else (KeyNoopCommand, w1)
    | None => (KeyNoopCommand, w1)
    end.
Proof.
  unfold cached_next, log_commit, next_query, first_commit. intros Hc.
  unfold nextCommand, navigate. run_m. simpl.
  rewrite next_unresolved_run, Hc. simpl.
  destruct (host_getLog _ _ _ _) as [log1 s1]. simpl.
  destruct log1 as [lg|]; simpl; [|done].
  destruct (Iterables_first _) as [n|]; simpl; [|done].
  case_bool_decide; simpl; [|done].
  rewrite !fn_lookup_insert. simpl. by rewrite !fn_lookup_insert.
Qed.

(** *** Worlds reached during a session *)

Lemma stable_refl scope w : stable scope w w.
Proof.
  split; [|split].
  - exists []. by rewrite app_nil_r.
  - done.
  - intros m Hm. by exists m.
Qed.

Lemma stable_trans scope w1 w2 w3 :
  stable scope w1 w2 → stable scope w2 w3 → stable scope w1 w3.
Proof.
  intros ([e1 [Ht1 He1]] & Hl1 & Hm1) ([e2 [Ht2 He2]] & Hl2 & Hm2).
  split; [|split].
  - exists (e1 ++ e2). rewrite Ht2, Ht1, <-app_assoc. split; [done|].
    by rewrite forallb_app, He1, He2.
  - congruence.
  - intros m Hm. destruct (Hm1 m Hm) as (m1 & Hs1 & Hk1).
    destruct (Hm2 m1 Hs1) as (m2 & Hs2 & Hk2).
    exists m2. split; [done|]. intros k Hk. rewrite Hk2, Hk1; done.
Qed.

Lemma stable_emit scope e w :
  session_event e = true → stable scope w (add_event e w).
Proof.
  intros He. split; [|split].
  - exists [e]. simpl. by rewrite He.
  - done.
  - intros m Hm. by exists m.
Qed.

Lemma stable_set_store scope s w : stable scope w (set_store s w).
Proof.
  split; [|split].
  - exists []. simpl. by rewrite app_nil_r.
  - done.
  - intros m Hm. by exists m.
Qed.

Lemma answer_stable scope q w : stable scope w (answer host q w).2.
Proof.
  unfold answer, getLog. destruct (host_getLog _ _ _ _) as [lg s]. simpl.
  eapply stable_trans; [by apply (stable_emit _ (EvGetLog q.1 q.2))|].
  apply stable_set_store.
Qed.

Lemma previousCommand_stable scope env w :
  stable scope w (previousCommand host env w).2.
Proof.
  destruct (cached_previous env w) as [p|] eqn:Hc.
  - unfold cached_previous in Hc.
    destruct (log_commit env (cl_repoLog env) w) as [l|] eqn:Hl; [|done].
    simpl in Hc. rewrite (previousCommand_cached env w l p Hl Hc).
    apply stable_refl.
  - rewrite (previousCommand_fallback env w Hc).
    pose proof (answer_stable scope (previous_query host env w) w) as Ha.
    destruct (answer _ _ _) as [log1 w1]. simpl in Ha.
    destruct (log_commit env log1 w1) as [l|]; simpl; [|done].
    eapply stable_trans; [exact Ha|apply stable_set_store].
Qed.

Lemma nextCommand_stable scope env w :
  stable scope w (nextCommand host env w).2.
Proof.
  destruct (cached_next env w) as [n|] eqn:Hc.
  - unfold cached_next in Hc.
    destruct (log_commit env (cl_repoLog env) w) as [l|] eqn:Hl; [|done].
    simpl in Hc. rewrite (nextCommand_cached env w l n Hl Hc).
    apply stable_refl.
  - rewrite (nextCommand_fallback env w Hc).
    pose proof (answer_stable scope (next_query env w) w) as Ha.
    cbv zeta. destruct (answer _ _ _) as [log1 w1]. simpl in Ha.
    destruct (first_commit log1) as [n|]; [|done].
    case_bool_decide; simpl; [|done].
    eapply stable_trans; [exact Ha|apply stable_set_store].
Qed.

Lemma onDidPressKey_stable scope it key w :
  stable scope w (onDidPressKey it key w).2.
Proof.
  destruct it; simpl; try by apply stable_emit.
  destruct (previousSha _); by apply stable_emit.
Qed.

Lemma KeyCommand_onDidPressKey_stable scope cmd key w :
  stable scope w (KeyCommand_onDidPressKey cmd key w).2.
Proof.
  destruct cmd; simpl; [apply stable_refl|apply onDidPressKey_stable].
Qed.

Lemma pressKey_stable scope scope' key w :
  stable scope w (pressKey host scope' key w).2.
Proof.
  unfold pressKey. run_m.
  eapply stable_trans; [by apply (stable_emit _ (EvKeyPressed key))|].
  destruct (scope_binding _ _ _) as [[cmd|env|env]|].
  - apply KeyCommand_onDidPressKey_stable.
  - pose proof (previousCommand_stable scope env (add_event (EvKeyPressed key) w)) as Hp.
    destruct (previousCommand _ _ _) as [cmd w1]. simpl in Hp.
    eapply stable_trans; [exact Hp|apply KeyCommand_onDidPressKey_stable].
  - pose proof (nextCommand_stable scope env (add_event (EvKeyPressed key) w)) as Hp.
    destruct (nextCommand _ _ _) as [cmd w1]. simpl in Hp.
    eapply stable_trans; [exact Hp|apply KeyCommand_onDidPressKey_stable].
  - apply stable_refl.
Qed.

Lemma setKeyCommand_right_stable scope scope' it w :
  stable scope w (setKeyCommand scope' "right" it w).2.
Proof.
  split; [|split]; simpl.
  - exists [EvSetKeyCommand scope' "right" it]. done.
  - apply length_alter.
  - unfold scope_mapping. simpl. intros m Hm.
    destruct (decide (scope' = scope)) as [->|Hne].
    + rewrite list_lookup_alter_eq.
      destruct (scopes w !! scope) as [[m0|]|]; simplify_eq/=.
      eexists. split; [done|]. intros k Hk. by rewrite lookup_insert_ne.
    + rewrite list_lookup_alter_ne by done. by exists m.
Qed.

Lemma onDidSelectItem_stable scope scope' it w :
  stable scope w (onDidSelectItem host scope' it w).2.
Proof.
  unfold onDidSelectItem, bind.
  pose proof (setKeyCommand_right_stable scope scope' it w) as Hs.
  destruct (setKeyCommand _ _ _ _) as [[] w1]. simpl in Hs.
  destruct (host_hasOnDidSelect host it); simpl; [|done].
  eapply stable_trans; [exact Hs|by apply stable_emit].
Qed.

Lemma userAction_stable scope scope' items a w :
  stable scope w (userAction host scope' items a w).2.
Proof.
  destruct a as [i|key]; simpl.
  - destruct (items !! i); [apply onDidSelectItem_stable|apply stable_refl].
  - apply pressKey_stable.
Qed.

Lemma session_stable scope scope' items actions w :
  stable scope w (session host scope' items actions w).2.
Proof.
  revert w. induction actions as [|a rest IH]; intros w; simpl.
  - apply stable_refl.
  - unfold bind.
    pose proof (userAction_stable scope scope' items a w) as Ha.
    destruct (userAction _ _ _ _ _) as [[] w1]. simpl in Ha.
    eapply stable_trans; [exact Ha|apply IH].
Qed.

(** *** [show], phase by phase *)

Lemma show_factor commit uri goBackCommand currentCommand repoLog w :
  show host commit uri goBackCommand currentCommand repoLog w =
    let '(scope, items, opts, w1) :=
      show_until_open host commit uri goBackCommand currentCommand repoLog w in
    let '(actions, selection) := host_showQuickPick host w1 items opts in
    let w2 := (session host scope items actions w1).2 in
    let pick := selection ≫= (λ i, items !! i) in
    (pick,
     set_scopes (<[scope := None]> (scopes w2))
       (add_event (EvScopeDispose scope) (add_event (EvQuickPickClosed pick) w2))).
Proof.
  unfold show, show_until_open, showQuickPick, scope_dispose. run_m.
  destruct (resolvePreviousFileSha _ _ _) as [[] w0].
  destruct (buildItems _ _ _ _ _ _ _) as [items wb].
  destruct (navigationCommands _ _ _ _) as [prev next].
  destruct (beginScope _ _) as [scope ws]. simpl.
  destruct (host_showQuickPick _ _ _ _) as [actions selection]. simpl.
  destruct (session _ _ _ _ _) as [[] w2]. reflexivity.
Qed.

Lemma resolved_commit_eq commit w :
  resolved_commit host commit w =
    with_previousFileSha
      (host_resolveReference host (add_event (EvResolvePreviousFileSha commit) w) commit)
      (store w commit).
Proof. unfold resolved_commit, resolvePreviousFileSha. simpl. apply fn_lookup_insert. Qed.

Lemma buildItems_run commit uri goBackCommand currentCommand repoLog w :
  let cv := store w commit in
  let w' := if isStash cv then w else add_event (EvGetRemotes (repoPath cv)) w in
  let remotes := host_getRemotes host w' (repoPath cv) in
  buildItems host commit uri goBackCommand currentCommand repoLog w =
    (from_option (λ back, [back]) [] goBackCommand
     ++ (if isStash cv
         then [stashApplyItem commit cv currentCommand;
               stashDeleteItem commit cv currentCommand;
               ShowCommitInViewQuickPickItem commit]
         else ShowCommitInViewQuickPickItem commit
              :: (if decide (length remotes ≠ 0)
                  then [OpenRemotesCommandQuickPickItem remotes (sha cv) currentCommand]
                  else []))
     ++ [new_OpenCommitFilesCommandQuickPickItem cv;
         new_OpenCommitFileRevisionsCommandQuickPickItem cv;
         diffWithPreviousRevisionItem cv;
         diffWithWorkingTreeItem cv uri]
     ++ (if isStash cv then [] else [copyShaItem cv uri])
     ++ [copyMessageItem cv uri;
         changedFilesItem commit cv uri goBackCommand repoLog]
     ++ map (new_CommitWithFileStatusQuickPickItem cv) (files cv),
     w').
Proof.
  unfold buildItems, getRemotes. run_m. cbv zeta.
  destruct (isStash (store w commit)); simpl.
  - destruct goBackCommand; reflexivity.
  - destruct (decide _); simpl; destruct goBackCommand; reflexivity.
Qed.

Lemma show_until_open_run commit uri goBackCommand currentCommand repoLog w :
  let w0 := (resolvePreviousFileSha host commit w).2 in
  let cv := resolved_commit host commit w in
  let b := buildItems host commit uri goBackCommand currentCommand repoLog w0 in
  let nav := navigationCommands commit cv goBackCommand repoLog in
  let m := keyMapping goBackCommand nav.1 nav.2 in
  let scope := length (scopes w) in
  show_until_open host commit uri goBackCommand currentCommand repoLog w =
    (scope, b.1, quickPickOptions cv,
     add_event (EvShowQuickPick b.1 (quickPickOptions cv))
       (set_scopes (scopes w ++ [Some m]) (add_event (EvBeginScope scope m) b.2))).
Proof.
  cbv zeta. unfold show_until_open, resolved_commit. run_m.
  destruct (resolvePreviousFileSha host commit w) as [[] w0] eqn:Hr. simpl.
  assert (Hs0 : scopes w0 = scopes w).
  { unfold resolvePreviousFileSha in Hr. by simplify_eq/=. }
  rewrite (buildItems_run commit uri goBackCommand currentCommand repoLog w0).
  cbv zeta. simpl.
  set (wb := if isStash (store w0 commit) then w0 else _).
  assert (Hb : store wb = store w0 ∧ scopes wb = scopes w0).
  { subst wb. by destruct (isStash _). }
  destruct Hb as [Hst Hsc]. rewrite Hst.
  destruct (navigationCommands _ _ _ _) as [prev next]. simpl.
  unfold beginScope. simpl. rewrite Hst, Hsc, Hs0. reflexivity.
Qed.

(** *** What the callbacks ask the log service *)

Lemma new_events_app w w' evs :
  trace w' = trace w ++ evs → new_events w w' = evs.
Proof. unfold new_events. intros ->. by rewrite drop_app_length. Qed.

Lemma new_events_refl w : new_events w w = [].
Proof. apply new_events_app. by rewrite app_nil_r. Qed.

Lemma answer_trace q w :
  trace (answer host q w).2 = trace w ++ [EvGetLog q.1 q.2].
Proof. unfold answer, getLog. by destruct (host_getLog _ _ _ _). Qed.

Lemma cached_previous_None env w :
  cached_previous env w = None ↔
  log_commit env (cl_repoLog env) w = None ∨
  ∃ l, log_commit env (cl_repoLog env) w = Some l ∧ previousSha (store w l) = None.
Proof.
  unfold cached_previous. destruct (log_commit _ _ _) as [l|]; simpl.
  - split; [intros Hp; right; by exists l|].
    intros [?|(l' & ? & ?)]; by simplify_eq.
  - split; [by left|done].
Qed.

Lemma cached_next_None env w :
  cached_next env w = None ↔
  log_commit env (cl_repoLog env) w = None ∨
  ∃ l, log_commit env (cl_repoLog env) w = Some l ∧ nextSha (store w l) = None.
Proof.
  unfold cached_next. destruct (log_commit _ _ _) as [l|]; simpl.
  - split; [intros Hp; right; by exists l|].
    intros [?|(l' & ? & ?)]; by simplify_eq.
  - split; [by left|done].
Qed.

Lemma previousCommand_events env w :
  new_events w (previousCommand host env w).2 =
    match cached_previous env w with
    | None => [EvGetLog (previous_query host env w).1 (previous_query host env w).2]
    | Some _ => []
    end.
Proof.
  destruct (cached_previous env w) as [p|] eqn:Hc.
  - unfold cached_previous in Hc.
    destruct (log_commit env (cl_repoLog env) w) as [l|] eqn:Hl; [|done].
    simpl in Hc. rewrite (previousCommand_cached env w l p Hl Hc).
    apply new_events_refl.
  - rewrite (previousCommand_fallback env w Hc).
    pose proof (answer_trace (previous_query host env w) w) as Ha.
    destruct (answer _ _ _) as [log1 w1]. simpl in Ha.
    apply new_events_app.
    by destruct (log_commit env log1 w1).
Qed.

Lemma nextCommand_events env w :
  new_events w (nextCommand host env w).2 =
    match cached_next env w with
    | None => [EvGetLog (next_query env w).1 (next_query env w).2]
    | Some _ => []
    end.
Proof.
  destruct (cached_next env w) as [n|] eqn:Hc.
  - unfold cached_next in Hc.
    destruct (log_commit env (cl_repoLog env) w) as [l|] eqn:Hl; [|done].
    simpl in Hc. rewrite (nextCommand_cached env w l n Hl Hc).
    apply new_events_refl.
  - rewrite (nextCommand_fallback env w Hc).
    pose proof (answer_trace (next_query env w) w) as Ha.
    cbv zeta. destruct (answer _ _ _) as [log1 w1]. simpl in Ha.
    apply new_events_app.
    destruct (first_commit log1); [|done]. by case_bool_decide.
Qed.

End Facts.

Section ShowFacts.
Context `{Externals} (host : Host).

Lemma keyMapping_left goBackCommand previousCommand nextCommand :
  keyMapping goBackCommand previousCommand nextCommand !! "left" =
    StaticCommand ∘ KeyItem <$> goBackCommand.
Proof.
  unfold keyMapping.
  rewrite !lookup_partial_alter_ne by done.
  by rewrite lookup_partial_alter_eq.
Qed.

Lemma keyMapping_comma goBackCommand previousCommand nextCommand :
  keyMapping goBackCommand previousCommand nextCommand !! "," = previousCommand.
Proof.
  unfold keyMapping.
  rewrite lookup_partial_alter_ne by done.
  by rewrite lookup_partial_alter_eq.
Qed.

Lemma keyMapping_period goBackCommand previousCommand nextCommand :
  keyMapping goBackCommand previousCommand nextCommand !! "." = nextCommand.
Proof. unfold keyMapping. by rewrite lookup_partial_alter_eq. Qed.

Lemma shown_pickers_app evs1 evs2 :
  shown_pickers (evs1 ++ evs2) = shown_pickers evs1 ++ shown_pickers evs2.
Proof. apply omap_app. Qed.

Lemma begun_scopes_app evs1 evs2 :
  begun_scopes (evs1 ++ evs2) = begun_scopes evs1 ++ begun_scopes evs2.
Proof. apply omap_app. Qed.

Lemma session_events_quiet evs :
  forallb session_event evs = true →
  begun_scopes evs = [] ∧ shown_pickers evs = [].
Proof.
  induction evs as [|e evs IH]; [done|]. simpl.
  intros [He Hr]%andb_prop. destruct (IH Hr) as [Hb Hs].
  unfold begun_scopes, shown_pickers in *. simpl.
  rewrite Hb, Hs. by destruct e.
Qed.

Lemma show_run commit uri goBackCommand currentCommand repoLog w :
  let cv := resolved_commit host commit w in
  let nav := navigationCommands commit cv goBackCommand repoLog in
  let m := keyMapping goBackCommand nav.1 nav.2 in
  let o := show_until_open host commit uri goBackCommand currentCommand repoLog w in
  let scope := o.1.1.1 in
  let items := o.1.1.2 in
  let opts := o.1.2 in
  let w1 := o.2 in
  let ua := host_showQuickPick host w1 items opts in
  let w2 := (session host scope items ua.1 w1).2 in
  let r := show host commit uri goBackCommand currentCommand repoLog w in
  scope = length (scopes w) ∧
  items = (buildItems host commit uri goBackCommand currentCommand repoLog
             (resolvePreviousFileSha host commit w).2).1 ∧
  scopes w1 = scopes w ++ [Some m] ∧
  r.1 = ua.2 ≫= (λ i, items !! i) ∧
  scopes r.2 = <[scope := None]> (scopes w2) ∧
  ∃ sess,
    forallb session_event sess = true ∧
    new_events w r.2 =
      EvResolvePreviousFileSha commit
        :: (if isStash cv then [] else [EvGetRemotes (repoPath cv)])
        ++ [EvBeginScope scope m; EvShowQuickPick items opts]
        ++ sess ++ [EvQuickPickClosed r.1; EvScopeDispose scope].
Proof.
  cbv zeta. rewrite show_factor, show_until_open_run. cbv zeta. cbn [fst snd].
  set (cv := resolved_commit host commit w).
  set (w0 := (resolvePreviousFileSha host commit w).2).
  set (b := buildItems host commit uri goBackCommand currentCommand repoLog w0).
  set (nav := navigationCommands commit cv goBackCommand repoLog).
  set (m := keyMapping goBackCommand nav.1 nav.2).
  set (w1 := add_event _ (set_scopes _ _)).
  destruct (host_showQuickPick host w1 b.1 (quickPickOptions cv))
    as [actions selection] eqn:Hua.
  cbn [fst snd trace scopes add_event set_scopes].
  repeat (split; [done|]).
  destruct (session_stable host (length (scopes w)) (length (scopes w)) b.1 actions w1)
    as ([sess [Ht Hq]] & _ & _).
  exists sess. split; [done|].
  apply new_events_app. simpl. rewrite Ht. subst w1. simpl.
  assert (Hb : trace b.2 =
               trace w ++ EvResolvePreviousFileSha commit
                 :: (if isStash cv then [] else [EvGetRemotes (repoPath cv)])).
  { subst b. rewrite buildItems_run. cbv zeta. cbn [snd].
    change (store w0 commit) with cv.
    destruct (isStash cv); [done|].
    unfold add_event at 1. cbn [trace]. subst w0. cbn [resolvePreviousFileSha snd].
    cbn [trace set_store add_event]. by rewrite <-app_assoc. }
  rewrite Hb, <-!app_assoc. reflexivity.
Qed.

Lemma session_bindings scope scope' items actions w m :
  scope_mapping scope w = Some m →
  let w' := (session host scope' items actions w).2 in
  is_Some (scope_mapping scope w') ∧
  ∀ key, key ≠ "right" → scope_binding scope key w' = m !! key.
Proof.
  intros Hm. cbv zeta.
  destruct (session_stable host scope scope' items actions w) as (_ & _ & Hk).
  destruct (Hk m Hm) as (m' & Hm' & Hkeys).
  split; [by exists m'|].
  intros key Hkey. unfold scope_binding. rewrite Hm'. simpl. by apply Hkeys.
Qed.

Lemma scope_mapping_opened ss m w :
  scopes w = ss ++ [Some m] → scope_mapping (length ss) w = Some m.
Proof. unfold scope_mapping. intros ->. by rewrite list_lookup_middle. Qed.

Lemma scope_mapping_fresh w : scope_mapping (length (scopes w)) w = None.
Proof. unfold scope_mapping. by rewrite lookup_ge_None_2. Qed.

Lemma scope_mapping_disposed scope ss w :
  scopes w = <[scope := None]> ss → scope_mapping scope w = None.
Proof.
  unfold scope_mapping. intros ->.
  destruct (decide (scope < length ss)).
  - by rewrite list_lookup_insert_eq.
  - rewrite lookup_ge_None_2; [done|]. rewrite length_insert. lia.
Qed.

Lemma resolved_commit_fields commit w :
  let cv := store w commit in
  let cv' := resolved_commit host commit w in
  sha cv' = sha cv ∧ repoPath cv' = repoPath cv ∧ isStash cv' = isStash cv ∧
  previousSha cv' = previousSha cv ∧ nextSha cv' = nextSha cv ∧
  files cv' = files cv ∧ message cv' = message cv.
Proof. cbv zeta. by rewrite resolved_commit_eq. Qed.

End ShowFacts.

Section LookupFacts.

Lemma commits_get_Some m key l :
  commits_get m key = Some l ↔ holds_for m key l.
Proof.
  induction m as [|[k v] m IH]; simpl.
  - split; [done|]. intros (before & after & Hm & _). by destruct before.
  - case_decide as Hk.
    + subst k. split.
      * intros [= <-]. exists [], m. split; [done|].
        intros l' Hin. by apply elem_of_nil in Hin.
      * intros ([|[k' v'] before] & after & Hm & Hfresh); simplify_eq/=; [done|].
        exfalso. apply (Hfresh v'). apply list_elem_of_here.
    + rewrite IH. split.
      * intros (before & after & -> & Hfresh).
        exists ((k, v) :: before), after. split; [done|].
        intros l' [Heq|Hin]%elem_of_cons; [by simplify_eq|by apply (Hfresh l')].
      * intros ([|[k' v'] before] & after & Hm & Hfresh); simplify_eq/=.
        exists before, after. split; [done|].
        intros l' Hin. apply (Hfresh l'). by apply list_elem_of_further.
Qed.

Lemma commits_get_None m key :
  commits_get m key = None ↔ ∀ l, (key, l) ∉ m.
Proof.
  induction m as [|[k v] m IH]; simpl.
  - split; [|done]. intros _ l Hin. by apply elem_of_nil in Hin.
  - case_decide as Hk.
    + subst k. split; [done|]. intros Hno. exfalso.
      apply (Hno v). apply list_elem_of_here.
    + rewrite IH. split.
      * intros Hno l [Heq|Hin]%elem_of_cons; [by simplify_eq|by apply (Hno l)].
      * intros Hno l Hin. apply (Hno l). by apply list_elem_of_further.
Qed.

Lemma log_commit_None env w :
  log_commit env (cl_repoLog env) w = None ↔ cache_lacks_commit env w.
Proof.
  unfold log_commit, log_get, cache_lacks_commit.
  destruct (cl_repoLog env) as [lg|].
  - rewrite commits_get_None. split.
    + intros Hno. right. by exists lg.
    + intros [?|(lg' & ? & Hno)]; by simplify_eq.
  - split; [by left|done].
Qed.

Lemma log_commit_Some env w l :
  log_commit env (cl_repoLog env) w = Some l ↔ cache_holds env w l.
Proof.
  unfold log_commit, log_get, cache_holds.
  destruct (cl_repoLog env) as [lg|].
  - rewrite commits_get_Some. split.
    + intros Hh. by exists lg.
    + intros (lg' & ? & Hh). by simplify_eq.
  - split; [done|]. by intros (lg & ? & _).
Qed.

Lemma cached_previous_untrusted env w :
  cached_previous env w = None ↔
  cache_lacks_commit env w ∨
  ∃ l, cache_holds env w l ∧ previousSha (store w l) = None.
Proof.
  rewrite cached_previous_None, log_commit_None.
  apply or_iff_compat_l. split; intros (l & Hl & Hp); exists l.
  - by rewrite <-log_commit_Some.
  - by rewrite log_commit_Some.
Qed.


End LookupFacts.

(** ** The navigation callbacks *)

(** C1. Whenever the previous (respectively next) neighbour of the commit
    is not resolved by the cached log and the fallback query does not
    resolve it either -- the service has no log, the fetched log lacks the
    commit, or the fetched commit has no previous sha (respectively the
    reverse log is absent, empty, or starts at the commit itself) -- the
    callback returns [KeyNoopCommand]. *)
Theorem callbacks_noop_when_unresolved `{Externals} (host : Host)
    (env : NavClosure) (w : World) :
  (cached_previous env w = None →
   let a := answer host (previous_query host env w) w in
   (a.1 = None ∨ log_commit env a.1 a.2 = None ∨
    ∃ l, log_commit env a.1 a.2 = Some l ∧ previousSha (store a.2 l) = None) →
   (previousCommand host env w).1 = KeyNoopCommand)
  ∧
  (cached_next env w = None →
   let a := answer host (next_query env w) w in
   (a.1 = None ∨ first_commit a.1 = None ∨
    ∃ n, first_commit a.1 = Some n ∧
         sha (store a.2 n) = sha (store a.2 (cl_commit env))) →
   (nextCommand host env w).1 = KeyNoopCommand).
Proof.
  split; intros Hc; cbv zeta.
  - rewrite (previousCommand_fallback host env w Hc).
    destruct (answer _ _ _) as [log1 w1]. simpl.
    intros [->|[Hl|(l & Hl & Hp)]].
    + reflexivity.
    + by rewrite Hl.
    + rewrite Hl. simpl. rewrite fn_lookup_insert. simpl. by rewrite Hp.
  - rewrite (nextCommand_fallback host env w Hc). cbv zeta.
    destruct (answer _ _ _) as [log1 w1]. simpl.
    intros [->|[Hf|(n & Hf & Hs)]].
    + reflexivity.
    + by rewrite Hf.
    + rewrite Hf. rewrite bool_decide_eq_false_2; [done|]. by intros Hne.
Qed.

Lemma callbacks_noop_when_unresolved_witness :
  let h := Demo.host None None [] None in
  let env := Demo.closure 0 None in
  (@previousCommand Demo.externals h env Demo.world).1 = KeyNoopCommand ∧
  (@nextCommand Demo.externals h env Demo.world).1 = KeyNoopCommand.
Proof.
  cbv zeta.
  destruct (@callbacks_noop_when_unresolved Demo.externals
              (Demo.host None None [] None) (Demo.closure 0 None) Demo.world)
    as [Hp Hn].
  split.
  - apply Hp; [reflexivity|]. left. reflexivity.
  - apply Hn; [reflexivity|]. left. reflexivity.
Defined.

(** C2. The previous-command callback issues a log query exactly when the
    cached log does not contain the commit -- there is no cached log, or no
    entry of it has the commit's sha as its key -- or the object it holds
    under that sha has no previous sha; the query is the one keyed at the
    commit's sha.  When the object the cached log holds under the commit's
    sha has a previous sha, nothing is asked and nothing changes: the
    command navigates to that sha with the cached log. *)
Theorem previous_query_iff_untrusted `{Externals} (host : Host)
    (env : NavClosure) (w : World) :
  let r := previousCommand host env w in
  let key := sha (store w (cl_commit env)) in
  let not_contained :=
    cl_repoLog env = None ∨
    ∃ lg, cl_repoLog env = Some lg ∧ ∀ l, (key, l) ∉ commits lg in
  let held l :=
    ∃ lg, cl_repoLog env = Some lg ∧ holds_for (commits lg) key l in
  let untrusted :=
    not_contained ∨ ∃ l, held l ∧ previousSha (store w l) = None in
  (log_queries (new_events w r.2) ≠ [] ↔ untrusted) ∧
  (untrusted →
   log_queries (new_events w r.2) = [previous_query host env w] ∧
   q_ref (previous_query host env w).2 = Some key) ∧
  (∀ l p, held l →
          previousSha (store w l) = Some p →
          new_events w r.2 = [] ∧
          r = (navigate (previousUri (store w l)) (cl_repoLog env) (Some p)
                 (cl_goBackCommand env), w)).
Proof.
  cbv zeta.
  pose proof (cached_previous_untrusted env w) as Hu.
  unfold cache_lacks_commit, cache_holds in Hu. rewrite <-Hu. clear Hu.
  rewrite (previousCommand_events host env w).
  split; [|split].
  - destruct (cached_previous env w); simpl.
    + split; [done|discriminate].
    + by destruct (previous_query host env w).
  - intros ->. split; reflexivity.
  - intros l p Hl%log_commit_Some Hp.
    rewrite (previousCommand_cached host env w l p Hl Hp).
    unfold cached_previous. rewrite Hl. simpl. by rewrite Hp.
Qed.

(** A cached log of two entries resolves the previous sha through its second
    entry; a cached log without an entry for the commit does not. *)
Lemma previous_query_iff_untrusted_witness :
  let h := Demo.host (Some (Demo.log_of [("b", 1)] (Some "b") true)) None [] None in
  let resolving := Some (Demo.log_of [("c", 2); ("b", 1)] (Some "b") true) in
  let lacking := Some (Demo.log_of [("c", 2)] (Some "c") true) in
  let r1 := @previousCommand Demo.externals h (Demo.closure 0 resolving) Demo.world in
  let r2 := @previousCommand Demo.externals h (Demo.closure 0 lacking) Demo.world in
  (r1.1 = navigate "/repo@a" resolving (Some "a") None ∧
   new_events Demo.world r1.2 = []) ∧
  log_queries (new_events Demo.world r2.2) =
    [("/repo", {| q_maxCount := Some 200%Z; q_reverse := None; q_ref := Some "b" |})].
Proof.
  cbv zeta. split.
  - pose proof (@previous_query_iff_untrusted Demo.externals
                  (Demo.host (Some (Demo.log_of [("b", 1)] (Some "b") true)) None [] None)
                  (Demo.closure 0 (Some (Demo.log_of [("c", 2); ("b", 1)] (Some "b") true)))
                  Demo.world) as (_ & _ & Hc).
    destruct (Hc 1 "a") as [He ->].
    + eexists. split; [reflexivity|].
      exists [("c", 2)], []. split; [reflexivity|].
      intros l' Hin. apply elem_of_cons in Hin as [Heq|Hin]; [discriminate Heq|].
      by apply elem_of_nil in Hin.
    + reflexivity.
    + split; [reflexivity|exact He].
  - pose proof (@previous_query_iff_untrusted Demo.externals
                  (Demo.host (Some (Demo.log_of [("b", 1)] (Some "b") true)) None [] None)
                  (Demo.closure 0 (Some (Demo.log_of [("c", 2)] (Some "c") true)))
                  Demo.world) as (_ & Hq & _).
    destruct Hq as [-> _]; [|reflexivity].
    left. right. eexists. split; [reflexivity|].
    intros l Hin. apply elem_of_cons in Hin as [Heq|Hin]; [discriminate Heq|].
    by apply elem_of_nil in Hin.
Defined.



(** C9. In the fallback of the next-command callback, when the first commit
    of the reverse log has the sha of the current commit, the callback
    writes nothing -- the world is the one in which the query resolved, so
    the commit keeps its [nextSha] -- and returns [KeyNoopCommand].  More
    generally, a command produced by the fallback never leads to the sha of
    the commit itself. *)
Theorem next_fallback_skips_same_commit `{Externals} (host : Host)
    (env : NavClosure) (w : World) :
  (log_commit env (cl_repoLog env) w = None ∨
   ∃ l, log_commit env (cl_repoLog env) w = Some l ∧
        nextSha (store w l) = None) →
  let commit := cl_commit env in
  let a := answer host (next_query env w) w in
  let r := nextCommand host env w in
  (∀ n, first_commit a.1 = Some n →
        sha (store a.2 n) = sha (store a.2 commit) →
        r = (KeyNoopCommand, a.2) ∧
        nextSha (store r.2 commit) = nextSha (store a.2 commit)) ∧
  (∀ target, navigation_target r.1 = Some target →
             target ≠ sha (store r.2 commit)).
Proof.
  rewrite <-cached_next_None. intros Hc. cbv zeta.
  rewrite (nextCommand_fallback host env w Hc). cbv zeta.
  destruct (answer _ _ _) as [log1 w1]. simpl.
  split.
  - intros n Hf Hs. rewrite Hf.
    rewrite bool_decide_eq_false_2; [done|]. by intros Hne.
  - intros target. destruct (first_commit log1) as [n|]; [|done].
    case_bool_decide as Hne; simpl; [|done].
    intros [= <-]. by rewrite fn_lookup_insert.
Qed.

Lemma next_fallback_skips_same_commit_witness :
  let h := Demo.host None (Some (Demo.log_of [("b", 1)] (Some "b") true)) [] None in
  let r := @nextCommand Demo.externals h (Demo.closure 4 None) Demo.world in
  r.1 = KeyNoopCommand ∧ nextSha (store r.2 4) = None.
Proof.
  cbv zeta.
  pose proof (@next_fallback_skips_same_commit Demo.externals
                (Demo.host None (Some (Demo.log_of [("b", 1)] (Some "b") true)) [] None)
                (Demo.closure 4 None) Demo.world (or_introl eq_refl)) as [Hs _].
  destruct (Hs 1 eq_refl eq_refl) as [-> _]. split; reflexivity.
Defined.

(** C10. In the fallback of the previous-command callback, when the fetched
    log holds an object for the commit, that object receives the [nextSha]
    the commit has at that moment, every other field of it and every other
    object stay as the query left them, and the command is built from the
    object after the copy. *)
Theorem previous_fallback_copies_nextSha `{Externals} (host : Host)
    (env : NavClosure) (w : World) (l : loc) :
  (log_commit env (cl_repoLog env) w = None ∨
   ∃ c, log_commit env (cl_repoLog env) w = Some c ∧
        previousSha (store w c) = None) →
  let commit := cl_commit env in
  let a := answer host (previous_query host env w) w in
  log_commit env a.1 a.2 = Some l →
  let r := previousCommand host env w in
  let fetched := store a.2 l in
  let kept := store r.2 l in
  nextSha kept = nextSha (store a.2 commit) ∧
  kept = with_nextSha (nextSha (store a.2 commit)) fetched ∧
  (sha kept = sha fetched ∧ repoPath kept = repoPath fetched ∧
   isStash kept = isStash fetched ∧ author kept = author fetched ∧
   message kept = message fetched ∧ files kept = files fetched ∧
   previousSha kept = previousSha fetched ∧
   previousFileSha kept = previousFileSha fetched) ∧
  (∀ l', l' ≠ l → store r.2 l' = store a.2 l') ∧
  r.1 = match previousSha kept with
        | None => KeyNoopCommand
        | Some p => navigate (previousUri kept) a.1 (Some p) (cl_goBackCommand env)
        end.
Proof.
  rewrite <-cached_previous_None. intros Hc. cbv zeta.
  rewrite (previousCommand_fallback host env w Hc).
  destruct (answer _ _ _) as [log1 w1]. simpl.
  intros ->. simpl. rewrite !fn_lookup_insert. simpl.
  repeat split; try done.
  intros l' Hne. by rewrite fn_lookup_insert_ne.
Qed.

Lemma previous_fallback_copies_nextSha_witness :
  let h := Demo.host (Some (Demo.log_of [("b", 1)] (Some "b") true)) None [] None in
  let r := @previousCommand Demo.externals h (Demo.closure 0 None) Demo.world in
  nextSha (store r.2 1) = Some "c" ∧ previousSha (store r.2 1) = Some "a".
Proof.
  cbv zeta.
  pose proof (@previous_fallback_copies_nextSha Demo.externals
                (Demo.host (Some (Demo.log_of [("b", 1)] (Some "b") true)) None [] None)
                (Demo.closure 0 None) Demo.world 1 (or_introl eq_refl) eq_refl)
    as (Hn & _ & (_ & _ & _ & _ & _ & _ & Hp & _) & _).
  split; [exact Hn|exact Hp].
Defined.

(** ** [CommitQuickPick.show] *)

(** C6. [show] opens its keyboard scope (a scope that did not exist before)
    and only then displays the picker; while the picker is open, whatever
    the user does, the scope stays open and its 'left' key stays bound to
    [goBackCommand]; after the picker has closed the scope is disposed, as
    the last thing [show] does, and it is no longer open when [show]
    returns.  No scope is opened or disposed in between. *)
Theorem scope_spans_the_picker `{Externals} (host : Host)
    (commit : loc) (uri : Uri) (goBackCommand currentCommand : option QuickPickItem)
    (repoLog : option GitLog) (w : World) :
  let '(scope, items, opts, w1) :=
    show_until_open host commit uri goBackCommand currentCommand repoLog w in
  let '(actions, selection) := host_showQuickPick host w1 items opts in
  let r := show host commit uri goBackCommand currentCommand repoLog w in
  scope_mapping scope w = None ∧
  (∃ setup m sess,
     new_events w r.2 =
       setup ++ [EvBeginScope scope m; EvShowQuickPick items opts]
         ++ sess ++ [EvQuickPickClosed r.1; EvScopeDispose scope] ∧
     (∀ e, e ∈ setup →
           e = EvResolvePreviousFileSha commit ∨ ∃ path, e = EvGetRemotes path) ∧
     forallb session_event sess = true ∧
     scope_mapping scope w1 = Some m) ∧
  (∀ n, let wn := (session host scope items (take n actions) w1).2 in
        is_Some (scope_mapping scope wn) ∧
        scope_binding scope "left" wn = StaticCommand ∘ KeyItem <$> goBackCommand) ∧
  (let w2 := (session host scope items actions w1).2 in
   r.2 = set_scopes (<[scope := None]> (scopes w2))
           (add_event (EvScopeDispose scope)
              (add_event (EvQuickPickClosed r.1) w2))) ∧
  scope_mapping scope r.2 = None.
Proof.
  pose proof (show_run host commit uri goBackCommand currentCommand repoLog w) as Hrun.
  pose proof (show_factor host commit uri goBackCommand currentCommand repoLog w) as Hf.
  cbv zeta in Hrun.
  destruct (show_until_open _ _ _ _ _ _ _) as [[[scope items] opts] w1].
  cbn [fst snd] in Hrun.
  destruct (host_showQuickPick host w1 items opts) as [actions selection].
  cbn [fst snd] in Hrun.
  destruct Hrun as (-> & _ & Hs1 & _ & Hs2 & sess & Hq & Hev).
  pose proof (scope_mapping_opened _ _ _ Hs1) as Hopen.
  split; [apply scope_mapping_fresh|]. split; [|split; [|split; [by rewrite Hf|]]].
  - eexists (_ :: _), _, sess. split; [exact Hev|]. split; [|done].
    intros e [->|He]%elem_of_cons; [by left|].
    destruct (isStash _); [by apply elem_of_nil in He|].
    apply list_elem_of_singleton in He. right. by eexists.
  - intros n.
    destruct (session_bindings host _ (length (scopes w)) items (take n actions) _ _ Hopen)
      as [Ho Hk].
    split; [done|]. rewrite Hk by done. apply keyMapping_left.
  - by eapply scope_mapping_disposed.
Qed.

(** C8. For a stash commit the mapping given to [beginScope] binds neither
    ',' nor '.', and the two keys stay unbound in the scope for as long as
    the picker is open. *)
Theorem stash_has_no_navigation `{Externals} (host : Host)
    (commit : loc) (uri : Uri) (goBackCommand currentCommand : option QuickPickItem)
    (repoLog : option GitLog) (w : World) :
  isStash (store w commit) = true →
  let '(scope, items, opts, w1) :=
    show_until_open host commit uri goBackCommand currentCommand repoLog w in
  let '(actions, selection) := host_showQuickPick host w1 items opts in
  let r := show host commit uri goBackCommand currentCommand repoLog w in
  (∃ m, begun_scopes (new_events w r.2) = [(scope, m)] ∧
        m !! "," = None ∧ m !! "." = None) ∧
  (∀ n, let wn := (session host scope items (take n actions) w1).2 in
        scope_binding scope "," wn = None ∧ scope_binding scope "." wn = None).
Proof.
  intros Hstash.
  pose proof (show_run host commit uri goBackCommand currentCommand repoLog w) as Hrun.
  cbv zeta in Hrun.
  destruct (show_until_open _ _ _ _ _ _ _) as [[[scope items] opts] w1].
  cbn [fst snd] in Hrun.
  destruct (host_showQuickPick host w1 items opts) as [actions selection].
  cbn [fst snd] in Hrun.
  destruct Hrun as (-> & _ & Hs1 & _ & _ & sess & Hq & Hev).
  pose proof (scope_mapping_opened _ _ _ Hs1) as Hopen.
  destruct (resolved_commit_fields host commit w) as (_ & _ & Hst & _).
  assert (Hnav : navigationCommands commit (resolved_commit host commit w)
                   goBackCommand repoLog = (None, None)).
  { unfold navigationCommands. by rewrite Hst, Hstash. }
  rewrite Hnav in *. cbn [fst snd] in *.
  split.
  - eexists. split; [|split; [apply keyMapping_comma|apply keyMapping_period]].
    rewrite Hev, Hst, Hstash. simpl.
    unfold begun_scopes. rewrite omap_app.
    destruct (session_events_quiet sess Hq) as [Hb _].
    unfold begun_scopes in Hb. by rewrite Hb.
  - intros n.
    destruct (session_bindings host _ (length (scopes w)) items (take n actions) _ _ Hopen)
      as [_ Hk].
    rewrite !Hk by done. split; [apply keyMapping_comma|apply keyMapping_period].
Qed.

Lemma stash_has_no_navigation_witness :
  let h := Demo.host None None [Highlight 0; PressKey ","; PressKey "."] (Some 0) in
  let r := @show Demo.externals h 3 "/repo" None None None Demo.world in
  ∃ m, begun_scopes (new_events Demo.world r.2) = [(0, m)] ∧
       m !! "," = None ∧ m !! "." = None.
Proof.
  cbv zeta.
  pose proof (@stash_has_no_navigation Demo.externals
                (Demo.host None None [Highlight 0; PressKey ","; PressKey "."] (Some 0))
                3 "/repo" None None None Demo.world eq_refl) as Hs.
  simpl in Hs. exact (proj1 Hs).
Defined.

(** C3. For a commit that is not a stash, look at the one mapping [show]
    gives to [beginScope].  With a repoLog that is defined, not truncated
    and without a sha, ',' and '.' are bound to static commands, never to
    callbacks, and ',' (respectively '.') is unbound exactly when the commit
    has no [previousSha] (respectively [nextSha]); a bound key navigates to
    that sha with the given log.  With any other repoLog both keys are bound
    to the callbacks. *)
Theorem navigation_bindings `{Externals} (host : Host)
    (commit : loc) (uri : Uri) (goBackCommand currentCommand : option QuickPickItem)
    (repoLog : option GitLog) (w : World) :
  isStash (store w commit) = false →
  let cv := store w commit in
  let cv' := resolved_commit host commit w in
  let r := show host commit uri goBackCommand currentCommand repoLog w in
  let env := {| cl_commit := commit; cl_repoLog := repoLog;
                cl_goBackCommand := goBackCommand |} in
  ∃ scope m,
    begun_scopes (new_events w r.2) = [(scope, m)] ∧
    (∀ lg, repoLog = Some lg → truncated lg = false → log_sha lg = None →
       (m !! "," = None ↔ previousSha cv = None) ∧
       (m !! "." = None ↔ nextSha cv = None) ∧
       (∀ b, m !! "," = Some b ∨ m !! "." = Some b → is_callback b = false) ∧
       (∀ p, previousSha cv = Some p →
             m !! "," = Some (StaticCommand
                          (navigate (previousUri cv') repoLog (Some p) goBackCommand))) ∧
       (∀ n, nextSha cv = Some n →
             m !! "." = Some (StaticCommand
                          (navigate (nextUri cv') repoLog (Some n) goBackCommand)))) ∧
    ((repoLog = None ∨
      ∃ lg, repoLog = Some lg ∧ (truncated lg = true ∨ log_sha lg ≠ None)) →
       m !! "," = Some (PreviousCallback env) ∧
       m !! "." = Some (NextCallback env)).
Proof.
  intros Hstash. cbv zeta.
  pose proof (show_run host commit uri goBackCommand currentCommand repoLog w) as Hrun.
  cbv zeta in Hrun.
  destruct Hrun as (_ & _ & _ & _ & _ & sess & Hq & Hev).
  destruct (resolved_commit_fields host commit w) as (_ & _ & Hst & Hp & Hn & _).
  cbv zeta in Hst, Hp, Hn.
  eexists _, _. split; [|split].
  - rewrite Hev, Hst, Hstash. simpl.
    unfold begun_scopes. rewrite omap_app.
    destruct (session_events_quiet sess Hq) as [Hb _].
    unfold begun_scopes in Hb. by rewrite Hb.
  - intros lg -> Ht Hs. rewrite keyMapping_comma, keyMapping_period.
    unfold navigationCommands, full_history.
    rewrite Hst, Hstash, Ht, Hs, Hp, Hn. simpl.
    destruct (previousSha (store w commit)) as [p|];
      destruct (nextSha (store w commit)) as [n|]; simpl;
      (repeat split; try done; try (by intros b [[= <-]|[= <-]]);
       intros ? [= <-]; reflexivity).
  - intros Hlog. rewrite keyMapping_comma, keyMapping_period.
    unfold navigationCommands. rewrite Hst, Hstash. simpl.
    assert (Hf : full_history repoLog = false).
    { destruct Hlog as [->|(lg & -> & [Ht|Hs])]; simpl; [done| |].
      - by rewrite Ht.
      - rewrite bool_decide_eq_false_2 by done. apply andb_false_r. }
    by rewrite Hf.
Qed.

Lemma navigation_bindings_witness :
  let full := Some (Demo.log_of [("c", 2); ("b", 0)] None false) in
  let r := @show Demo.externals (Demo.host None None [] None)
             0 "/repo" None None full Demo.world in
  ∃ scope m,
    begun_scopes (new_events Demo.world r.2) = [(scope, m)] ∧
    m !! "," = None ∧
    m !! "." = Some (StaticCommand (navigate "/repo@c" full (Some "c") None)).
Proof.
  cbv zeta.
  destruct (@navigation_bindings Demo.externals (Demo.host None None [] None)
              0 "/repo" None None
              (Some (Demo.log_of [("c", 2); ("b", 0)] None false))
              Demo.world eq_refl)
    as (scope & m & Hb & Hfull & _).
  exists scope, m. split; [exact Hb|].
  destruct (Hfull _ eq_refl eq_refl eq_refl) as (Hc & _ & _ & _ & Hn).
  split; [by apply Hc|]. exact (Hn "c" eq_refl).
Defined.

(** C4. [show] returns what the picker resolved to: the item of the shown
    list the user accepted, or nothing when the picker was dismissed.  The
    result is always absent or one of the items shown. *)
Theorem show_returns_the_pick `{Externals} (host : Host)
    (commit : loc) (uri : Uri) (goBackCommand currentCommand : option QuickPickItem)
    (repoLog : option GitLog) (w : World) :
  let '(scope, items, opts, w1) :=
    show_until_open host commit uri goBackCommand currentCommand repoLog w in
  let '(actions, selection) := host_showQuickPick host w1 items opts in
  let r := show host commit uri goBackCommand currentCommand repoLog w in
  shown_pickers (new_events w r.2) = [items] ∧
  r.1 = selection ≫= (λ i, items !! i) ∧
  (selection = None → r.1 = None) ∧
  (∀ i it, selection = Some i → items !! i = Some it → r.1 = Some it) ∧
  (r.1 = None ∨ ∃ it, r.1 = Some it ∧ it ∈ items) ∧
  (∃ evs, new_events w r.2 = evs ++ [EvQuickPickClosed r.1; EvScopeDispose scope]).
Proof.
  pose proof (show_run host commit uri goBackCommand currentCommand repoLog w) as Hrun.
  cbv zeta in Hrun.
  destruct (show_until_open _ _ _ _ _ _ _) as [[[scope items] opts] w1].
  cbn [fst snd] in Hrun.
  destruct (host_showQuickPick host w1 items opts) as [actions selection].
  cbn [fst snd] in Hrun.
  destruct Hrun as (_ & _ & _ & Hr & _ & sess & Hq & Hev).
  cbv zeta. split; [|split; [exact Hr|split; [|split; [|split]]]].
  - rewrite Hev.
    destruct (session_events_quiet sess Hq) as [_ Hs].
    rewrite app_comm_cons, !shown_pickers_app, Hs.
    by destruct (isStash _).
  - intros ->. by rewrite Hr.
  - intros i it -> Hi. by rewrite Hr.
  - rewrite Hr. destruct selection as [i|]; simpl; [|by left].
    destruct (items !! i) as [it|] eqn:Hi; [|by left].
    right. exists it. split; [done|]. by eapply list_elem_of_lookup_2.
  - rewrite Hev. eexists.
    rewrite app_comm_cons, 2!app_assoc. reflexivity.
Qed.

(** The items [show] builds, named by the terms that build them. *)
Lemma picker_items_built `{Externals} (host : Host)
    (commit : loc) (uri : Uri) (goBackCommand currentCommand : option QuickPickItem)
    (repoLog : option GitLog) (w : World) :
  let stash := isStash (store w commit) in
  let cv := resolved_commit host commit w in
  let r := show host commit uri goBackCommand currentCommand repoLog w in
  ∃ items built,
    shown_pickers (new_events w r.2) = [items] ∧
    items = from_option (λ back, [back]) [] goBackCommand ++ built ∧
    (stashApplyItem commit cv currentCommand ∈ built ↔ stash = true) ∧
    (stashDeleteItem commit cv currentCommand ∈ built ↔ stash = true) ∧
    (copyShaItem cv uri ∈ built ↔ stash = false) ∧
    (∀ it, it ∈ built →
           (item_command it = Some StashApply → stash = true) ∧
           (item_command it = Some StashDelete → stash = true) ∧
           (item_command it = Some CopyShaToClipboard → stash = false)) ∧
    new_OpenCommitFilesCommandQuickPickItem cv ∈ built ∧
    new_OpenCommitFileRevisionsCommandQuickPickItem cv ∈ built ∧
    diffWithPreviousRevisionItem cv ∈ built ∧
    diffWithWorkingTreeItem cv uri ∈ built ∧
    copyMessageItem cv uri ∈ built ∧
    changedFilesItem commit cv uri goBackCommand repoLog ∈ built.
Proof.
  cbv zeta.
  pose proof (show_run host commit uri goBackCommand currentCommand repoLog w) as Hrun.
  cbv zeta in Hrun.
  destruct Hrun as (_ & Hitems & _ & _ & _ & sess & Hq & Hev).
  destruct (resolved_commit_fields host commit w) as (_ & _ & Hst & _).
  cbv zeta in Hst.
  rewrite buildItems_run in Hitems. cbv zeta in Hitems. cbn [fst] in Hitems.
  change (store (resolvePreviousFileSha host commit w).2 commit)
    with (resolved_commit host commit w) in Hitems.
  set (cv := resolved_commit host commit w) in *.
  rewrite Hst in Hitems.
  eexists _, _. split; [|split; [exact Hitems|]].
  { rewrite Hev.
    destruct (session_events_quiet sess Hq) as [_ Hs].
    rewrite app_comm_cons, !shown_pickers_app, Hs.
    destruct (isStash cv); reflexivity. }
  assert (Hcmd : ∀ it,
            it ∈ map (new_CommitWithFileStatusQuickPickItem cv) (files cv) →
            item_command it = None).
  { intros it (f & <- & _)%list_elem_of_In%in_map_iff. reflexivity. }
  clear Hitems Hev Hq Hst.
  unfold stashApplyItem, stashDeleteItem, copyShaItem, copyMessageItem,
    changedFilesItem, diffWithPreviousRevisionItem, diffWithWorkingTreeItem,
    new_OpenCommitFilesCommandQuickPickItem,
    new_OpenCommitFileRevisionsCommandQuickPickItem.
  destruct (isStash (store w commit)); [|destruct (decide _)]; simpl.
  all: repeat split; try done.
  all: try (solve [intros;
                   repeat (first [apply list_elem_of_here|apply list_elem_of_further])]).
  all: try (intros Hin;
            repeat (apply elem_of_cons in Hin as [Heq|Hin]; [discriminate Heq|]);
            apply Hcmd in Hin; discriminate Hin).
  all: intros Hc;
       repeat (match goal with
               | Hin : _ ∈ _ :: _ |- _ =>
                   apply elem_of_cons in Hin as [->|Hin];
                   [simpl in Hc; discriminate Hc|]
               end);
       match goal with
       | Hin : _ ∈ map _ _ |- _ => apply Hcmd in Hin; congruence
       end.
Qed.

(** C5. The list shown in the picker is the caller's go-back item, when
    there is one, followed by the items [show] builds.  Among the built
    items there is an item whose command is StashApply exactly when the
    commit is a stash, likewise for StashDelete, and an item whose command
    is CopyShaToClipboard exactly when it is not; these are the stash-apply,
    stash-delete and copy-commit-id items of [show].  The open-files and
    open-revisions items, two DiffDirectory items (with the previous
    revision and with the working tree), the CopyMessageToClipboard item and
    the changed-files item, whose command is ShowQuickCommitDetails, are
    always present. *)
Theorem picker_items `{Externals} (host : Host)
    (commit : loc) (uri : Uri) (goBackCommand currentCommand : option QuickPickItem)
    (repoLog : option GitLog) (w : World) :
  let stash := isStash (store w commit) in
  let cv := resolved_commit host commit w in
  let r := show host commit uri goBackCommand currentCommand repoLog w in
  ∃ items built,
    shown_pickers (new_events w r.2) = [items] ∧
    items = from_option (λ back, [back]) [] goBackCommand ++ built ∧
    ((∃ it, it ∈ built ∧ item_command it = Some StashApply) ↔ stash = true) ∧
    ((∃ it, it ∈ built ∧ item_command it = Some StashDelete) ↔ stash = true) ∧
    ((∃ it, it ∈ built ∧ item_command it = Some CopyShaToClipboard) ↔ stash = false) ∧
    (stashApplyItem commit cv currentCommand ∈ built ↔ stash = true) ∧
    (stashDeleteItem commit cv currentCommand ∈ built ↔ stash = true) ∧
    (copyShaItem cv uri ∈ built ↔ stash = false) ∧
    (∀ it, it ∈ built →
           (item_command it = Some StashApply → stash = true) ∧
           (item_command it = Some StashDelete → stash = true) ∧
           (item_command it = Some CopyShaToClipboard → stash = false)) ∧
    (∃ uris label description,
       OpenCommitFilesCommandQuickPickItem uris label description ∈ built ∧
       label = "$(file-symlink-file) Open Files") ∧
    (∃ uris label description,
       OpenCommitFileRevisionsCommandQuickPickItem uris label description ∈ built ∧
       label = "$(file-symlink-file) Open Revisions") ∧
    (∃ label description a,
       CommandQuickPickItem label description DiffDirectory
         [a; DiffDirectoryCommandArgs (previousFileSha cv) (Some (sha cv))] ∈ built) ∧
    (∃ label description a,
       CommandQuickPickItem label description DiffDirectory
         [a; DiffDirectoryCommandArgs (sha cv) None] ∈ built) ∧
    (∃ it, it ∈ built ∧ item_command it = Some CopyMessageToClipboard) ∧
    (∃ label description args,
       CommandQuickPickItem label description ShowQuickCommitDetails args ∈ built ∧
       label = "Changed Files") ∧
    new_OpenCommitFilesCommandQuickPickItem cv ∈ built ∧
    new_OpenCommitFileRevisionsCommandQuickPickItem cv ∈ built ∧
    diffWithPreviousRevisionItem cv ∈ built ∧
    diffWithWorkingTreeItem cv uri ∈ built ∧
    copyMessageItem cv uri ∈ built ∧
    changedFilesItem commit cv uri goBackCommand repoLog ∈ built.
Proof.
  cbv zeta.
  destruct (picker_items_built host commit uri goBackCommand currentCommand repoLog w)
    as (items & built & Hshown & Hitems & Ha & Hd & Hc & Hcmd
        & Hof & Hor & Hdp & Hdw & Hcm & Hcf).
  exists items, built.
  split; [exact Hshown|]. split; [exact Hitems|].
  split; [|split; [|split]].
  - split.
    + intros (it & Hin & Hit). destruct (Hcmd it Hin) as (H1 & H2 & H3). auto.
    + intros Hs. eexists. split; [by apply Ha|reflexivity].
  - split.
    + intros (it & Hin & Hit). destruct (Hcmd it Hin) as (H1 & H2 & H3). auto.
    + intros Hs. eexists. split; [by apply Hd|reflexivity].
  - split.
    + intros (it & Hin & Hit). destruct (Hcmd it Hin) as (H1 & H2 & H3). auto.
    + intros Hs. eexists. split; [by apply Hc|reflexivity].
  - repeat (split; [done|]).
    split; [by eexists _, _, _|]. split; [by eexists _, _, _|].
    split; [by eexists _, _, _|]. split; [by eexists _, _, _|].
    split; [eexists; split; [exact Hcm|reflexivity]|].
    split; [by eexists _, _, _|].
    done.
Qed.

(** ** Runs of the model *)

(** The cached log holds the very object the caller passed (object 4).  The
    first press of '.' takes the fallback and assigns [nextSha] on that
    object; the second press finds it in the cached log and asks nothing. *)
Example next_pressed_twice :
  let h := Demo.host None (Some (Demo.log_of [("c", 2)] (Some "b") true)) [] None in
  let cached := Some (Demo.log_of [("b", 4)] (Some "b") true) in
  let env := Demo.closure 4 cached in
  let r1 := @nextCommand Demo.externals h env Demo.world in
  let r2 := @nextCommand Demo.externals h env r1.2 in
  r1.1 = navigate "/repo@c" None (Some "c") None ∧
  r2.1 = navigate "/repo@c" cached (Some "c") None ∧
  log_queries (new_events Demo.world r1.2) =
    [("/repo", {| q_maxCount := Some 1%Z; q_reverse := Some true; q_ref := Some "b" |})] ∧
  log_queries (new_events r1.2 r2.2) = [].
Proof. vm_compute. done. Qed.

(** A whole session on a truncated history: the user highlights the first
    item, presses ',' and '.', and accepts the second item. *)
Example show_session :
  let h := Demo.host (Some (Demo.log_of [("b", 1)] (Some "b") true))
                     (Some (Demo.log_of [("c", 2)] (Some "b") true))
                     [Highlight 0; PressKey ","; PressKey "."] (Some 1) in
  let r := @show Demo.externals h 4 "/repo" None None None Demo.world in
  r.1 = Some (OpenCommitFilesCommandQuickPickItem ["/repo/a.ts"]
                "$(file-symlink-file) Open Files" "") ∧
  log_queries (new_events Demo.world r.2) =
    [("/repo", {| q_maxCount := Some 200%Z; q_reverse := None; q_ref := Some "b" |});
     ("/repo", {| q_maxCount := Some 1%Z; q_reverse := Some true; q_ref := Some "b" |})] ∧
  scopes r.2 = [None] ∧
  nextSha (store r.2 4) = Some "c" ∧
  nextSha (store r.2 1) = None.
Proof. vm_compute. done. Qed.

(** * Further properties *)

Section SessionFacts.
Context `{Externals} (host : Host).

(** *** Sessions compose *)

Lemma session_app scope items actions1 actions2 w :
  session host scope items (actions1 ++ actions2) w =
    session host scope items actions2 (session host scope items actions1 w).2.
Proof.
  revert w. induction actions1 as [|a rest IH]; intros w; simpl.
  - reflexivity.
  - unfold bind. destruct (userAction _ _ _ _ _) as [[] w1]. apply IH.
Qed.

Lemma stable_trace scope w w' :
  stable scope w w' → trace w' = trace w ++ new_events w w'.
Proof.
  intros ([evs [Ht _]] & _). by rewrite (new_events_app w w' evs Ht).
Qed.

Lemma new_events_trans w1 w2 w3 :
  (∃ e1, trace w2 = trace w1 ++ e1) → (∃ e2, trace w3 = trace w2 ++ e2) →
  new_events w1 w3 = new_events w1 w2 ++ new_events w2 w3.
Proof.
  intros [e1 H1] [e2 H2].
  rewrite (new_events_app w1 w2 e1 H1), (new_events_app w2 w3 e2 H2).
  apply new_events_app. by rewrite H2, H1, <-app_assoc.
Qed.

(** *** Sessions that never reach a callback *)

Lemma silent_refl w : silent w w.
Proof. split; [done|]. exists []. by rewrite app_nil_r. Qed.

Lemma silent_trans w1 w2 w3 : silent w1 w2 → silent w2 w3 → silent w1 w3.
Proof.
  intros [Hs1 (e1 & Ht1 & Hq1)] [Hs2 (e2 & Ht2 & Hq2)].
  split; [congruence|]. exists (e1 ++ e2).
  rewrite Ht2, Ht1, <-app_assoc. split; [done|].
  unfold log_queries in *. by rewrite omap_app, Hq1, Hq2.
Qed.

Lemma silent_emit e w :
  log_queries [e] = [] → silent w (add_event e w).
Proof. intros He. split; [done|]. by exists [e]. Qed.

Lemma silent_set_scopes ss w : silent w (set_scopes ss w).
Proof. split; [done|]. exists []. simpl. by rewrite app_nil_r. Qed.

Lemma onDidPressKey_silent it key w :
  silent w (onDidPressKey it key w).2 ∧
  scopes (onDidPressKey it key w).2 = scopes w.
Proof.
  destruct it; simpl; try (split; [by apply silent_emit|done]).
  destruct (previousSha _); (split; [by apply silent_emit|done]).
Qed.

Lemma KeyCommand_onDidPressKey_silent cmd key w :
  silent w (KeyCommand_onDidPressKey cmd key w).2 ∧
  scopes (KeyCommand_onDidPressKey cmd key w).2 = scopes w.
Proof.
  destruct cmd; simpl; [split; [apply silent_refl|done]|apply onDidPressKey_silent].
Qed.

Lemma pressed_keys_cons a rest :
  pressed_keys (a :: rest) = pressed_keys [a] ++ pressed_keys rest.
Proof. unfold pressed_keys. by rewrite <-omap_app. Qed.

Lemma callbacks_unpressed_cons m a rest :
  callbacks_unpressed m (a :: rest) →
  callbacks_unpressed m [a] ∧ callbacks_unpressed m rest.
Proof.
  intros Hm. split; intros k b Hk Hb Hin;
    apply (Hm k b Hk Hb); rewrite pressed_keys_cons, elem_of_app; auto.
Qed.

Lemma userAction_quiet scope items a w m :
  scope_mapping scope w = Some m →
  callbacks_unpressed m [a] →
  let w' := (userAction host scope items a w).2 in
  silent w w' ∧
  ∃ m', scope_mapping scope w' = Some m' ∧
        ∀ k b, m' !! k = Some b → is_callback b = true → m !! k = Some b.
Proof.
  intros Hm Hu. cbv zeta. destruct a as [i|key]; simpl.
  - destruct (items !! i) as [it|]; simpl.
    + unfold onDidSelectItem, bind, setKeyCommand.
      assert (Hm' : scope_mapping scope
                (set_scopes
                   (alter (fmap (insert "right" (StaticCommand (KeyItem it))))
                      scope (scopes w))
                   (add_event (EvSetKeyCommand scope "right" it) w))
              = Some (<["right" := StaticCommand (KeyItem it)]> m)).
      { unfold scope_mapping in *. simpl. rewrite list_lookup_alter_eq.
        destruct (scopes w !! scope) as [[m0|]|]; by simplify_eq/=. }
      assert (Hcb : ∀ k b,
                <["right" := StaticCommand (KeyItem it)]> m !! k = Some b →
                is_callback b = true → m !! k = Some b).
      { intros k b. destruct (decide (k = "right")) as [->|Hne].
        - rewrite lookup_insert_eq. by intros [= <-].
        - by rewrite lookup_insert_ne. }
      assert (Hset : silent w
                (set_scopes
                   (alter (fmap (insert "right" (StaticCommand (KeyItem it))))
                      scope (scopes w))
                   (add_event (EvSetKeyCommand scope "right" it) w))).
      { eapply silent_trans;
          [by apply (silent_emit (EvSetKeyCommand scope "right" it))
          |apply silent_set_scopes]. }
      destruct (host_hasOnDidSelect host it); simpl.
      * split; [|by eexists].
        eapply silent_trans; [exact Hset|by apply silent_emit].
      * split; [exact Hset|by eexists].
    + split; [apply silent_refl|]. exists m. by split.
  - unfold pressKey. run_m.
    assert (Hb : scope_binding scope key (add_event (EvKeyPressed key) w) = m !! key).
    { unfold scope_binding, scope_mapping in *. simpl. by rewrite Hm. }
    rewrite Hb.
    destruct (m !! key) as [[cmd|env|env]|] eqn:Hk.
    + destruct (KeyCommand_onDidPressKey_silent cmd key
                  (add_event (EvKeyPressed key) w)) as [Hs Hsc].
      split.
      * eapply silent_trans; [by apply (silent_emit (EvKeyPressed key))|exact Hs].
      * exists m. split; [|done].
        unfold scope_mapping in *. by rewrite Hsc.
    + exfalso. apply (Hu key _ Hk eq_refl). simpl. apply list_elem_of_here.
    + exfalso. apply (Hu key _ Hk eq_refl). simpl. apply list_elem_of_here.
    + split; [by apply (silent_emit (EvKeyPressed key))|].
      exists m. by split.
Qed.

Lemma session_quiet scope items actions w m :
  scope_mapping scope w = Some m →
  callbacks_unpressed m actions →
  silent w (session host scope items actions w).2.
Proof.
  revert w m. induction actions as [|a rest IH]; intros w m Hm Hu; simpl.
  - apply silent_refl.
  - unfold bind.
    destruct (callbacks_unpressed_cons m a rest Hu) as [Ha Hrest].
    pose proof (userAction_quiet scope items a w m Hm Ha) as Hq.
    cbv zeta in Hq.
    destruct (userAction _ _ _ _ _) as [[] w1]. simpl in Hq.
    destruct Hq as [Hs (m' & Hm' & Hcb)].
    eapply silent_trans; [exact Hs|].
    apply (IH w1 m' Hm').
    intros k b Hk Hb. apply (Hrest k b); [by apply Hcb|done].
Qed.

(** *** Highlighting an item *)

Lemma onDidSelectItem_binds scope it w :
  is_Some (scope_mapping scope w) →
  let w' := (onDidSelectItem host scope it w).2 in
  scope_binding scope "right" w' = Some (StaticCommand (KeyItem it)) ∧
  scopes w' = alter (fmap (insert "right" (StaticCommand (KeyItem it)))) scope (scopes w).
Proof.
  intros [m Hm]. cbv zeta. unfold onDidSelectItem, bind, setKeyCommand.
  assert (Hb : ∀ w',
            scopes w' = alter (fmap (insert "right" (StaticCommand (KeyItem it))))
                          scope (scopes w) →
            scope_binding scope "right" w' = Some (StaticCommand (KeyItem it))).
  { intros w' Hs. unfold scope_binding, scope_mapping in *. rewrite Hs.
    rewrite list_lookup_alter_eq.
    destruct (scopes w !! scope) as [[m0|]|]; simplify_eq/=.
    by rewrite lookup_insert_eq. }
  destruct (host_hasOnDidSelect host it); simpl; (split; [by apply Hb|done]).
Qed.

Lemma session_open scope scope' items actions w :
  is_Some (scope_mapping scope w) →
  is_Some (scope_mapping scope (session host scope' items actions w).2).
Proof.
  intros [m Hm].
  destruct (session_stable host scope scope' items actions w) as (_ & _ & Hk).
  destruct (Hk m Hm) as (m' & Hm' & _). by exists m'.
Qed.

(** *** Scopes other than the picker's own *)

Lemma other_scopes_kept_refl scope w : other_scopes_kept scope w w.
Proof. exists id. by rewrite list_alter_id. Qed.

Lemma other_scopes_kept_same scope w w' :
  scopes w' = scopes w → other_scopes_kept scope w w'.
Proof. intros Hs. exists id. by rewrite list_alter_id. Qed.

Lemma other_scopes_kept_trans scope w1 w2 w3 :
  other_scopes_kept scope w1 w2 → other_scopes_kept scope w2 w3 →
  other_scopes_kept scope w1 w3.
Proof.
  intros [f Hf] [g Hg]. exists (g ∘ f). by rewrite Hg, Hf, list_alter_alter_eq.
Qed.

Lemma answer_scopes q w : scopes (answer host q w).2 = scopes w.
Proof. unfold answer, getLog. by destruct (host_getLog _ _ _ _). Qed.

Lemma previousCommand_scopes env w :
  scopes (previousCommand host env w).2 = scopes w.
Proof.
  destruct (cached_previous env w) as [p|] eqn:Hc.
  - unfold cached_previous in Hc.
    destruct (log_commit env (cl_repoLog env) w) as [l|] eqn:Hl; [|done].
    simpl in Hc. by rewrite (previousCommand_cached host env w l p Hl Hc).
  - rewrite (previousCommand_fallback host env w Hc).
    pose proof (answer_scopes (previous_query host env w) w) as Ha.
    destruct (answer _ _ _) as [log1 w1]. simpl in Ha.
    by destruct (log_commit env log1 w1).
Qed.

Lemma nextCommand_scopes env w :
  scopes (nextCommand host env w).2 = scopes w.
Proof.
  destruct (cached_next env w) as [n|] eqn:Hc.
  - unfold cached_next in Hc.
    destruct (log_commit env (cl_repoLog env) w) as [l|] eqn:Hl; [|done].
    simpl in Hc. by rewrite (nextCommand_cached host env w l n Hl Hc).
  - rewrite (nextCommand_fallback host env w Hc). cbv zeta.
    pose proof (answer_scopes (next_query env w) w) as Ha.
    destruct (answer _ _ _) as [log1 w1]. simpl in Ha.
    destruct (first_commit log1); [|done]. by case_bool_decide.
Qed.

Lemma userAction_other_scopes scope items a w :
  other_scopes_kept scope w (userAction host scope items a w).2.
Proof.
  destruct a as [i|key]; simpl.
  - destruct (items !! i) as [it|]; [|apply other_scopes_kept_refl].
    unfold onDidSelectItem, bind, setKeyCommand.
    eexists. by destruct (host_hasOnDidSelect host it).
  - apply other_scopes_kept_same. unfold pressKey. run_m.
    set (w0 := add_event (EvKeyPressed key) w).
    destruct (scope_binding scope key w0) as [[cmd|env|env]|]; [| | |done].
    + by destruct (KeyCommand_onDidPressKey_silent cmd key w0) as [_ ->].
    + pose proof (previousCommand_scopes env w0) as Hp.
      destruct (previousCommand host env w0) as [cmd w1]. simpl in Hp.
      by destruct (KeyCommand_onDidPressKey_silent cmd key w1) as [_ ->].
    + pose proof (nextCommand_scopes env w0) as Hp.
      destruct (nextCommand host env w0) as [cmd w1]. simpl in Hp.
      by destruct (KeyCommand_onDidPressKey_silent cmd key w1) as [_ ->].
Qed.

Lemma session_other_scopes scope items actions w :
  other_scopes_kept scope w (session host scope items actions w).2.
Proof.
  revert w. induction actions as [|a rest IH]; intros w; simpl.
  - apply other_scopes_kept_refl.
  - unfold bind.
    pose proof (userAction_other_scopes scope items a w) as Ha.
    destruct (userAction _ _ _ _ _) as [[] w1]. simpl in Ha.
    eapply other_scopes_kept_trans; [exact Ha|apply IH].
Qed.

End SessionFacts.

Section ShowWorlds.
Context `{Externals} (host : Host).

Lemma buildItems_world commit uri goBackCommand currentCommand repoLog w :
  (buildItems host commit uri goBackCommand currentCommand repoLog w).2 =
    if isStash (store w commit) then w
    else add_event (EvGetRemotes (repoPath (store w commit))) w.
Proof. by rewrite buildItems_run. Qed.

(** The worlds [show] goes through, in closed form. *)
Lemma show_world commit uri goBackCommand currentCommand repoLog w :
  let w0 := (resolvePreviousFileSha host commit w).2 in
  let cv := resolved_commit host commit w in
  let wb := if isStash cv then w0 else add_event (EvGetRemotes (repoPath cv)) w0 in
  let items := (buildItems host commit uri goBackCommand currentCommand repoLog w0).1 in
  let nav := navigationCommands commit cv goBackCommand repoLog in
  let m := keyMapping goBackCommand nav.1 nav.2 in
  let scope := length (scopes w) in
  let opts := quickPickOptions cv in
  let w1 :=
    add_event (EvShowQuickPick items opts)
      (set_scopes (scopes w ++ [Some m]) (add_event (EvBeginScope scope m) wb)) in
  let ua := host_showQuickPick host w1 items opts in
  let w2 := (session host scope items ua.1 w1).2 in
  let pick := ua.2 ≫= (λ i, items !! i) in
  show_until_open host commit uri goBackCommand currentCommand repoLog w =
    (scope, items, opts, w1) ∧
  show_actions host commit uri goBackCommand currentCommand repoLog w = ua.1 ∧
  show_until_closed host commit uri goBackCommand currentCommand repoLog w = w2 ∧
  show host commit uri goBackCommand currentCommand repoLog w =
    (pick,
     set_scopes (<[scope := None]> (scopes w2))
       (add_event (EvScopeDispose scope) (add_event (EvQuickPickClosed pick) w2))).
Proof.
  cbv zeta.
  assert (Ho : show_until_open host commit uri goBackCommand currentCommand repoLog w =
    (length (scopes w),
     (buildItems host commit uri goBackCommand currentCommand repoLog
        (resolvePreviousFileSha host commit w).2).1,
     quickPickOptions (resolved_commit host commit w),
     add_event
       (EvShowQuickPick
          (buildItems host commit uri goBackCommand currentCommand repoLog
             (resolvePreviousFileSha host commit w).2).1
          (quickPickOptions (resolved_commit host commit w)))
       (set_scopes
          (scopes w ++
           [Some (keyMapping goBackCommand
                    (navigationCommands commit (resolved_commit host commit w)
                       goBackCommand repoLog).1
                    (navigationCommands commit (resolved_commit host commit w)
                       goBackCommand repoLog).2)])
          (add_event
             (EvBeginScope (length (scopes w))
                (keyMapping goBackCommand
                   (navigationCommands commit (resolved_commit host commit w)
                      goBackCommand repoLog).1
                   (navigationCommands commit (resolved_commit host commit w)
                      goBackCommand repoLog).2))
             (if isStash (resolved_commit host commit w)
              then (resolvePreviousFileSha host commit w).2
              else add_event
                     (EvGetRemotes (repoPath (resolved_commit host commit w)))
                     (resolvePreviousFileSha host commit w).2))))).
  { rewrite show_until_open_run. cbv zeta. by rewrite buildItems_world. }
  split; [exact Ho|].
  unfold show_actions, show_until_closed. rewrite show_factor, Ho.
  by destruct (host_showQuickPick _ _ _ _).
Qed.

Lemma keyMapping_callback goBackCommand previousCommand nextCommand k b :
  keyMapping goBackCommand previousCommand nextCommand !! k = Some b →
  is_callback b = true →
  (k = "," ∧ previousCommand = Some b) ∨ (k = "." ∧ nextCommand = Some b).
Proof.
  unfold keyMapping. rewrite !lookup_partial_alter.
  repeat case_decide; subst; intros Hk Hb; auto.
  - destruct goBackCommand; simplify_eq/=.
  - by rewrite lookup_empty in Hk.
Qed.

Lemma resolved_store commit w l :
  store (resolvePreviousFileSha host commit w).2 l =
    if decide (l = commit) then resolved_commit host commit w else store w l.
Proof.
  unfold resolved_commit, resolvePreviousFileSha. simpl. case_decide as Hl.
  - subst. by rewrite !fn_lookup_insert.
  - by rewrite fn_lookup_insert_ne.
Qed.

(** If the user presses no key that is bound to a callback when the picker
    opens, [show] asks the log service nothing and writes nothing but the
    resolved previous file sha. *)
Lemma show_silent commit uri goBackCommand currentCommand repoLog w :
  let cv := resolved_commit host commit w in
  let nav := navigationCommands commit cv goBackCommand repoLog in
  let m := keyMapping goBackCommand nav.1 nav.2 in
  let r := show host commit uri goBackCommand currentCommand repoLog w in
  callbacks_unpressed m
    (show_actions host commit uri goBackCommand currentCommand repoLog w) →
  log_queries (new_events w r.2) = [] ∧
  store r.2 = store (resolvePreviousFileSha host commit w).2.
Proof.
  cbv zeta. intros Hu.
  destruct (show_world commit uri goBackCommand currentCommand repoLog w)
    as (_ & Ha & _ & Hs).
  cbv zeta in Ha, Hs. rewrite Ha in Hu. rewrite Hs. clear Ha Hs.
  set (cv := resolved_commit host commit w) in *.
  set (w0 := (resolvePreviousFileSha host commit w).2) in *.
  set (wb := if isStash cv then w0 else _) in *.
  set (m := keyMapping _ _ _) in *.
  set (items := (buildItems _ _ _ _ _ _ _).1) in *.
  set (w1 := add_event (EvShowQuickPick _ _) _) in *.
  set (actions := (host_showQuickPick host w1 items (quickPickOptions cv)).1) in *.
  assert (Hopen : scope_mapping (length (scopes w)) w1 = Some m).
  { apply (scope_mapping_opened (scopes w)). subst w1 wb w0.
    by destruct (isStash cv). }
  destruct (session_quiet host (length (scopes w)) items actions w1 m Hopen Hu)
    as [Hst (evs & Ht & Hq)].
  assert (Hb : store wb = store w0 ∧
               ∃ e0, trace wb = trace w ++ e0 ∧ log_queries e0 = []).
  { subst wb w0. destruct (isStash cv); simpl.
    - split; [done|]. by eexists [_].
    - split; [done|]. eexists [_; _]. by rewrite <-app_assoc. }
  destruct Hb as [Hsb (e0 & Htb & Hq0)].
  split.
  - erewrite new_events_app.
    2:{ cbn [snd trace set_scopes add_event]. rewrite Ht.
        subst w1. cbn [trace add_event set_scopes]. rewrite Htb.
        rewrite <-!app_assoc. reflexivity. }
    unfold log_queries in *. rewrite !omap_app, Hq0, Hq. reflexivity.
  - cbn [snd store set_scopes add_event]. rewrite Hst.
    subst w1. cbn [store add_event set_scopes]. exact Hsb.
Qed.

Lemma remote_queries_app evs1 evs2 :
  remote_queries (evs1 ++ evs2) = remote_queries evs1 ++ remote_queries evs2.
Proof. apply omap_app. Qed.

Lemma session_events_no_remotes evs :
  forallb session_event evs = true → remote_queries evs = [].
Proof.
  induction evs as [|e evs IH]; [done|]. simpl.
  intros [He Hr]%andb_prop. unfold remote_queries in *. simpl.
  rewrite (IH Hr). by destruct e.
Qed.

(** The list [show] hands to the picker, in closed form. *)
Lemma shown_items commit uri goBackCommand currentCommand repoLog w :
  let cv := resolved_commit host commit w in
  let remotes := remotes_answer host commit w in
  let r := show host commit uri goBackCommand currentCommand repoLog w in
  shown_pickers (new_events w r.2) =
    [from_option (λ back, [back]) [] goBackCommand
     ++ (if isStash cv
         then [stashApplyItem commit cv currentCommand;
               stashDeleteItem commit cv currentCommand;
               ShowCommitInViewQuickPickItem commit]
         else ShowCommitInViewQuickPickItem commit
              :: (if decide (length remotes ≠ 0)
                  then [OpenRemotesCommandQuickPickItem remotes (sha cv) currentCommand]
                  else []))
     ++ [new_OpenCommitFilesCommandQuickPickItem cv;
         new_OpenCommitFileRevisionsCommandQuickPickItem cv;
         diffWithPreviousRevisionItem cv;
         diffWithWorkingTreeItem cv uri]
     ++ (if isStash cv then [] else [copyShaItem cv uri])
     ++ [copyMessageItem cv uri;
         changedFilesItem commit cv uri goBackCommand repoLog]
     ++ map (new_CommitWithFileStatusQuickPickItem cv) (files cv)].
Proof.
  cbv zeta.
  pose proof (show_run host commit uri goBackCommand currentCommand repoLog w) as Hrun.
  cbv zeta in Hrun.
  destruct Hrun as (_ & Hitems & _ & _ & _ & sess & Hq & Hev).
  rewrite buildItems_run in Hitems. cbv zeta in Hitems. cbn [fst] in Hitems.
  rewrite Hev.
  destruct (session_events_quiet sess Hq) as [_ Hs].
  rewrite app_comm_cons, !shown_pickers_app, Hs, Hitems.
  unfold remotes_answer, resolved_commit.
  by destruct (isStash _).
Qed.

(** *** One press of a navigation key *)

Lemma log_queries_app evs1 evs2 :
  log_queries (evs1 ++ evs2) = log_queries evs1 ++ log_queries evs2.
Proof. apply omap_app. Qed.

Lemma silent_queries w w' : silent w w' → log_queries (new_events w w') = [].
Proof. intros [_ (evs & Ht & Hq)]. by rewrite (new_events_app w w' evs Ht). Qed.

Lemma silent_extends w w' : silent w w' → ∃ evs, trace w' = trace w ++ evs.
Proof. intros [_ (evs & Ht & _)]. by exists evs. Qed.

Lemma previousCommand_extends env w :
  ∃ evs, trace (previousCommand host env w).2 = trace w ++ evs.
Proof.
  destruct (previousCommand_stable host 0 env w) as ([evs [Ht _]] & _).
  by exists evs.
Qed.

Lemma nextCommand_extends env w :
  ∃ evs, trace (nextCommand host env w).2 = trace w ++ evs.
Proof.
  destruct (nextCommand_stable host 0 env w) as ([evs [Ht _]] & _).
  by exists evs.
Qed.

(** The log queries of a press of a key bound to a callback are those of
    the callback, run in the world in which the key arrives. *)
Lemma pressKey_previous scope key env w :
  scope_binding scope key w = Some (PreviousCallback env) →
  let w0 := add_event (EvKeyPressed key) w in
  log_queries (new_events w (pressKey host scope key w).2) =
    log_queries (new_events w0 (previousCommand host env w0).2).
Proof.
  intros Hb. cbv zeta. unfold pressKey. run_m.
  assert (Hb' : scope_binding scope key (add_event (EvKeyPressed key) w) =
                Some (PreviousCallback env)) by exact Hb.
  rewrite Hb'. set (w0 := add_event (EvKeyPressed key) w).
  destruct (previousCommand_extends env w0) as [e1 He1].
  destruct (previousCommand host env w0) as [cmd w1]. simpl in *.
  destruct (KeyCommand_onDidPressKey_silent cmd key w1) as [Hs _].
  rewrite (new_events_trans w w0 _); [|by exists [EvKeyPressed key]|].
  2:{ destruct (silent_extends _ _ Hs) as [e2 He2].
      exists (e1 ++ e2). by rewrite He2, He1, <-app_assoc. }
  rewrite (new_events_trans w0 w1 _);
    [|by exists e1|by apply silent_extends].
  rewrite !log_queries_app, (silent_queries _ _ Hs), app_nil_r.
  by rewrite (new_events_app w w0 [EvKeyPressed key]).
Qed.

Lemma pressKey_next scope key env w :
  scope_binding scope key w = Some (NextCallback env) →
  let w0 := add_event (EvKeyPressed key) w in
  log_queries (new_events w (pressKey host scope key w).2) =
    log_queries (new_events w0 (nextCommand host env w0).2).
Proof.
  intros Hb. cbv zeta. unfold pressKey. run_m.
  assert (Hb' : scope_binding scope key (add_event (EvKeyPressed key) w) =
                Some (NextCallback env)) by exact Hb.
  rewrite Hb'. set (w0 := add_event (EvKeyPressed key) w).
  destruct (nextCommand_extends env w0) as [e1 He1].
  destruct (nextCommand host env w0) as [cmd w1]. simpl in *.
  destruct (KeyCommand_onDidPressKey_silent cmd key w1) as [Hs _].
  rewrite (new_events_trans w w0 _); [|by exists [EvKeyPressed key]|].
  2:{ destruct (silent_extends _ _ Hs) as [e2 He2].
      exists (e1 ++ e2). by rewrite He2, He1, <-app_assoc. }
  rewrite (new_events_trans w0 w1 _);
    [|by exists e1|by apply silent_extends].
  rewrite !log_queries_app, (silent_queries _ _ Hs), app_nil_r.
  by rewrite (new_events_app w w0 [EvKeyPressed key]).
Qed.

(** The log queries of [show] are those of the session of its picker. *)
Lemma show_queries commit uri goBackCommand currentCommand repoLog w :
  let '(scope, items, opts, w1) :=
    show_until_open host commit uri goBackCommand currentCommand repoLog w in
  let actions := show_actions host commit uri goBackCommand currentCommand repoLog w in
  let r := show host commit uri goBackCommand currentCommand repoLog w in
  log_queries (new_events w r.2) =
    log_queries (new_events w1 (session host scope items actions w1).2) ∧
  store w1 = store (resolvePreviousFileSha host commit w).2 ∧
  scope_mapping scope w1 =
    Some (keyMapping goBackCommand
            (navigationCommands commit (resolved_commit host commit w)
               goBackCommand repoLog).1
            (navigationCommands commit (resolved_commit host commit w)
               goBackCommand repoLog).2).
Proof.
  destruct (show_world commit uri goBackCommand currentCommand repoLog w)
    as (Ho & Ha & _ & Hs).
  cbv zeta in Ho, Ha, Hs. rewrite Ho, Ha, Hs. cbv zeta. clear Ho Ha Hs.
  set (cv := resolved_commit host commit w).
  set (w0 := (resolvePreviousFileSha host commit w).2).
  set (wb := if isStash cv then w0 else _).
  set (m := keyMapping _ _ _).
  set (items := (buildItems _ _ _ _ _ _ _).1).
  set (w1 := add_event (EvShowQuickPick _ _) _).
  set (actions := (host_showQuickPick host w1 items (quickPickOptions cv)).1).
  assert (Hb : store wb = store w0 ∧ scopes wb = scopes w ∧
               ∃ e0, trace wb = trace w ++ e0 ∧ log_queries e0 = []).
  { subst wb w0. destruct (isStash cv); simpl.
    - repeat split. by eexists [_].
    - repeat split. eexists [_; _]. by rewrite <-app_assoc. }
  destruct Hb as (Hsb & Hscb & e0 & Htb & Hq0).
  split; [|split].
  - destruct (session_stable host 0 (length (scopes w)) items actions w1)
      as ([sess [Ht _]] & _).
    rewrite (new_events_app w1 _ sess Ht).
    erewrite new_events_app.
    2:{ cbn [snd trace set_scopes add_event]. rewrite Ht.
        subst w1. cbn [trace add_event set_scopes]. rewrite Htb.
        rewrite <-!app_assoc. reflexivity. }
    rewrite !log_queries_app, Hq0. simpl. by rewrite app_nil_r.
  - subst w1. cbn [store add_event set_scopes]. exact Hsb.
  - by apply (scope_mapping_opened (scopes w)).
Qed.

Lemma resolved_adjacency commit w l :
  let c := store w l in
  let c' := store (resolvePreviousFileSha host commit w).2 l in
  sha c' = sha c ∧ repoPath c' = repoPath c ∧
  previousSha c' = previousSha c ∧ nextSha c' = nextSha c.
Proof.
  cbv zeta. rewrite resolved_store. case_decide as Hl; [|done]. subst.
  by destruct (resolved_commit_fields host commit w) as (? & ? & _ & ? & ? & _).
Qed.

Lemma callbacks_see_same env w w' :
  (∀ l, sha (store w' l) = sha (store w l) ∧
        repoPath (store w' l) = repoPath (store w l) ∧
        previousSha (store w' l) = previousSha (store w l) ∧
        nextSha (store w' l) = nextSha (store w l)) →
  cached_previous env w' = cached_previous env w ∧
  cached_next env w' = cached_next env w ∧
  previous_query host env w' = previous_query host env w ∧
  next_query env w' = next_query env w.
Proof.
  intros Hs. unfold cached_previous, cached_next, log_commit, previous_query, next_query.
  destruct (Hs (cl_commit env)) as (-> & -> & _).
  destruct (log_get _ _) as [l|]; [|done]. simpl.
  by destruct (Hs l) as (_ & _ & -> & ->).
Qed.

End ShowWorlds.

Section WriteFacts.
Context `{Externals} (host : Host).

(** *** The only field ever assigned is [nextSha] *)

Lemma same_but_nextSha_refl c : same_but_nextSha c c.
Proof. by repeat split. Qed.

Lemma same_but_nextSha_trans c1 c2 c3 :
  same_but_nextSha c1 c2 → same_but_nextSha c2 c3 → same_but_nextSha c1 c3.
Proof.
  unfold same_but_nextSha.
  intros (?&?&?&?&?&?&?&?) (?&?&?&?&?&?&?&?). repeat split; congruence.
Qed.

Lemma same_but_nextSha_assign v c : same_but_nextSha c (with_nextSha v c).
Proof. by repeat split. Qed.

Lemma only_nextSha_refl w : only_nextSha w w.
Proof. intros l. apply same_but_nextSha_refl. Qed.

Lemma only_nextSha_trans w1 w2 w3 :
  only_nextSha w1 w2 → only_nextSha w2 w3 → only_nextSha w1 w3.
Proof. intros H1 H2 l. eapply same_but_nextSha_trans; [apply H1|apply H2]. Qed.

Lemma only_nextSha_store w w' : store w' = store w → only_nextSha w w'.
Proof. intros Hs l. rewrite Hs. apply same_but_nextSha_refl. Qed.

Lemma only_nextSha_assign l v w :
  only_nextSha w (set_store (<[l := with_nextSha v (store w l)]> (store w)) w).
Proof.
  intros l'. simpl. destruct (decide (l' = l)) as [->|Hne].
  - rewrite fn_lookup_insert. apply same_but_nextSha_assign.
  - rewrite fn_lookup_insert_ne by done. apply same_but_nextSha_refl.
Qed.

Lemma answer_store q w :
  host_keeps_store host → store (answer host q w).2 = store w.
Proof.
  intros Hk. unfold answer, getLog.
  pose proof (Hk (add_event (EvGetLog q.1 q.2) w) q.1 q.2) as Hs.
  destruct (host_getLog _ _ _ _) as [lg s]. simpl in *. by subst.
Qed.

Lemma previousCommand_only_nextSha env w :
  host_keeps_store host → only_nextSha w (previousCommand host env w).2.
Proof.
  intros Hk. destruct (cached_previous env w) as [p|] eqn:Hc.
  - unfold cached_previous in Hc.
    destruct (log_commit env (cl_repoLog env) w) as [l|] eqn:Hl; [|done].
    simpl in Hc. rewrite (previousCommand_cached host env w l p Hl Hc).
    apply only_nextSha_refl.
  - rewrite (previousCommand_fallback host env w Hc).
    pose proof (answer_store (previous_query host env w) w Hk) as Ha.
    destruct (answer _ _ _) as [log1 w1]. simpl in Ha.
    destruct (log_commit env log1 w1) as [l|]; simpl.
    + eapply only_nextSha_trans; [by apply only_nextSha_store|].
      apply only_nextSha_assign.
    + by apply only_nextSha_store.
Qed.

Lemma nextCommand_only_nextSha env w :
  host_keeps_store host → only_nextSha w (nextCommand host env w).2.
Proof.
  intros Hk. destruct (cached_next env w) as [n|] eqn:Hc.
  - unfold cached_next in Hc.
    destruct (log_commit env (cl_repoLog env) w) as [l|] eqn:Hl; [|done].
    simpl in Hc. rewrite (nextCommand_cached host env w l n Hl Hc).
    apply only_nextSha_refl.
  - rewrite (nextCommand_fallback host env w Hc). cbv zeta.
    pose proof (answer_store (next_query env w) w Hk) as Ha.
    destruct (answer _ _ _) as [log1 w1]. simpl in Ha.
    destruct (first_commit log1) as [n|]; [|by apply only_nextSha_store].
    case_bool_decide; [|by apply only_nextSha_store].
    eapply only_nextSha_trans; [by apply only_nextSha_store|].
    apply only_nextSha_assign.
Qed.

Lemma userAction_only_nextSha scope items a w :
  host_keeps_store host → only_nextSha w (userAction host scope items a w).2.
Proof.
  intros Hk. destruct a as [i|key]; simpl.
  - destruct (items !! i) as [it|]; [|apply only_nextSha_refl].
    apply only_nextSha_store. unfold onDidSelectItem, bind, setKeyCommand.
    by destruct (host_hasOnDidSelect host it).
  - unfold pressKey. run_m.
    set (w0 := add_event (EvKeyPressed key) w).
    assert (H0 : only_nextSha w w0) by by apply only_nextSha_store.
    destruct (scope_binding scope key w0) as [[cmd|env|env]|].
    + eapply only_nextSha_trans; [exact H0|]. apply only_nextSha_store.
      by destruct (KeyCommand_onDidPressKey_silent cmd key w0) as [[-> _] _].
    + pose proof (previousCommand_only_nextSha env w0 Hk) as Hp.
      destruct (previousCommand host env w0) as [cmd w1]. simpl in Hp.
      eapply only_nextSha_trans; [exact H0|].
      eapply only_nextSha_trans; [exact Hp|]. apply only_nextSha_store.
      by destruct (KeyCommand_onDidPressKey_silent cmd key w1) as [[-> _] _].
    + pose proof (nextCommand_only_nextSha env w0 Hk) as Hp.
      destruct (nextCommand host env w0) as [cmd w1]. simpl in Hp.
      eapply only_nextSha_trans; [exact H0|].
      eapply only_nextSha_trans; [exact Hp|]. apply only_nextSha_store.
      by destruct (KeyCommand_onDidPressKey_silent cmd key w1) as [[-> _] _].
    + exact H0.
Qed.

Lemma session_only_nextSha scope items actions w :
  host_keeps_store host → only_nextSha w (session host scope items actions w).2.
Proof.
  intros Hk. revert w. induction actions as [|a rest IH]; intros w; simpl.
  - apply only_nextSha_refl.
  - unfold bind.
    pose proof (userAction_only_nextSha scope items a w Hk) as Ha.
    destruct (userAction _ _ _ _ _) as [[] w1]. simpl in Ha.
    eapply only_nextSha_trans; [exact Ha|apply IH].
Qed.

Lemma only_nextSha_cached_previous env w w' :
  only_nextSha w w' → cached_previous env w' = cached_previous env w.
Proof.
  intros Ho. unfold cached_previous, log_commit.
  destruct (Ho (cl_commit env)) as (-> & _).
  destruct (log_get _ _) as [l|]; [|done]. simpl.
  by destruct (Ho l) as (_ & _ & _ & _ & _ & _ & -> & _).
Qed.

Lemma only_nextSha_log_commit env log w w' :
  only_nextSha w w' → log_commit env log w' = log_commit env log w.
Proof. intros Ho. unfold log_commit. by destruct (Ho (cl_commit env)) as (-> & _). Qed.

End WriteFacts.

(** ** The log service is asked lazily *)

(** X1. Whatever the commit and the repoLog, if the user presses neither
    ',' nor '.' while the picker is open, [show] never asks the log service
    for anything, and the only thing it writes to a commit object is the
    resolved previous file sha of the commit it was given. *)
Theorem queries_need_navigation_keys `{Externals} (host : Host)
    (commit : loc) (uri : Uri) (goBackCommand currentCommand : option QuickPickItem)
    (repoLog : option GitLog) (w : World) :
  let actions := show_actions host commit uri goBackCommand currentCommand repoLog w in
  let r := show host commit uri goBackCommand currentCommand repoLog w in
  "," ∉ pressed_keys actions →
  "." ∉ pressed_keys actions →
  log_queries (new_events w r.2) = [] ∧
  ∀ l, store r.2 l =
       if decide (l = commit) then resolved_commit host commit w else store w l.
Proof.
  cbv zeta. intros Hcomma Hperiod.
  destruct (show_silent host commit uri goBackCommand currentCommand repoLog w)
    as [Hq Hs].
  - intros k b Hk Hb.
    destruct (keyMapping_callback _ _ _ k b Hk Hb) as [[-> _]|[-> _]]; done.
  - split; [exact Hq|]. intros l. rewrite Hs. apply resolved_store.
Qed.

Lemma queries_need_navigation_keys_witness :
  let h := Demo.host None None [Highlight 0; PressKey "left"; PressKey "right"] (Some 0) in
  let r := @show Demo.externals h 4 "/repo" None None None Demo.world in
  log_queries (new_events Demo.world r.2) = [] ∧ nextSha (store r.2 4) = None.
Proof.
  cbv zeta.
  destruct (@queries_need_navigation_keys Demo.externals
              (Demo.host None None [Highlight 0; PressKey "left"; PressKey "right"] (Some 0))
              4 "/repo" None None None Demo.world) as [Hq Hs].
  - vm_compute. intros Hin.
    repeat (apply elem_of_cons in Hin as [Heq|Hin]; [discriminate Heq|]).
    by apply elem_of_nil in Hin.
  - vm_compute. intros Hin.
    repeat (apply elem_of_cons in Hin as [Heq|Hin]; [discriminate Heq|]).
    by apply elem_of_nil in Hin.
  - split; [exact Hq|]. by rewrite Hs.
Defined.

(** X2. For a stash commit, and for any commit shown with a repoLog that is
    defined, not truncated and without a sha, no key is ever bound to a
    callback: whatever the user does in the picker, [show] never asks the
    log service for anything and no [nextSha] is written. *)
Theorem static_bindings_never_query `{Externals} (host : Host)
    (commit : loc) (uri : Uri) (goBackCommand currentCommand : option QuickPickItem)
    (repoLog : option GitLog) (w : World) :
  (isStash (store w commit) = true ∨
   ∃ lg, repoLog = Some lg ∧ truncated lg = false ∧ log_sha lg = None) →
  let r := show host commit uri goBackCommand currentCommand repoLog w in
  log_queries (new_events w r.2) = [] ∧
  ∀ l, store r.2 l =
       if decide (l = commit) then resolved_commit host commit w else store w l.
Proof.
  intros Hcase. cbv zeta.
  destruct (show_silent host commit uri goBackCommand currentCommand repoLog w)
    as [Hq Hs].
  - intros k b Hk Hb. exfalso.
    destruct (resolved_commit_fields host commit w) as (_ & _ & Hst & _).
    cbv zeta in Hst.
    assert (Hnav : ∀ x,
              (navigationCommands commit (resolved_commit host commit w)
                 goBackCommand repoLog).1 = Some x ∨
              (navigationCommands commit (resolved_commit host commit w)
                 goBackCommand repoLog).2 = Some x →
              is_callback x = false).
    { unfold navigationCommands. rewrite Hst.
      destruct (isStash (store w commit)); simpl.
      - by intros x [?|?].
      - destruct Hcase as [?|(lg & -> & Ht & Hsha)]; [done|].
        simpl. rewrite Ht, Hsha. simpl.
        intros x. destruct (previousSha _), (nextSha _); simpl;
          intros [?|?]; by simplify_eq. }
    destruct (keyMapping_callback _ _ _ k b Hk Hb) as [[_ Hx]|[_ Hx]].
    + rewrite (Hnav b) in Hb; [done|by left].
    + rewrite (Hnav b) in Hb; [done|by right].
  - split; [exact Hq|]. intros l. rewrite Hs. apply resolved_store.
Qed.

Lemma static_bindings_never_query_witness :
  let full := Some (Demo.log_of [("c", 2); ("b", 0)] None false) in
  let h := Demo.host None None [PressKey ","; PressKey "."; PressKey ","] None in
  let r := @show Demo.externals h 0 "/repo" None None full Demo.world in
  log_queries (new_events Demo.world r.2) = [].
Proof.
  cbv zeta.
  refine (proj1 (@static_bindings_never_query Demo.externals
            (Demo.host None None [PressKey ","; PressKey "."; PressKey ","] None)
            0 "/repo" None None
            (Some (Demo.log_of [("c", 2); ("b", 0)] None false)) Demo.world _)).
  right. eexists. split; [reflexivity|]. split; reflexivity.
Defined.

(** ** What the callbacks remember *)

(** X3. With a log service that only reads, [show] never changes anything
    about any commit object except a [nextSha] -- whatever the user does in
    the picker -- apart from the previous file sha it resolves on the commit
    it was given. *)
Theorem show_only_writes_nextSha `{Externals} (host : Host)
    (commit : loc) (uri : Uri) (goBackCommand currentCommand : option QuickPickItem)
    (repoLog : option GitLog) (w : World) :
  host_keeps_store host →
  let r := show host commit uri goBackCommand currentCommand repoLog w in
  ∀ l, same_but_nextSha
         (if decide (l = commit) then resolved_commit host commit w else store w l)
         (store r.2 l).
Proof.
  intros Hk. cbv zeta. intros l.
  destruct (show_world host commit uri goBackCommand currentCommand repoLog w)
    as (_ & _ & _ & Hs).
  cbv zeta in Hs. rewrite Hs. cbn [snd store set_scopes add_event].
  rewrite <-resolved_store.
  match goal with
  | |- context [session host ?sc ?its ?acts ?w1] =>
      pose proof (session_only_nextSha host sc its acts w1 Hk l) as Hn;
      assert (Hw1 : store w1 = store (resolvePreviousFileSha host commit w).2)
        by (cbn [store add_event set_scopes]; by destruct (isStash _))
  end.
  by rewrite Hw1 in Hn.
Qed.

Lemma show_only_writes_nextSha_witness :
  let h := Demo.host (Some (Demo.log_of [("b", 1)] (Some "b") true))
                     (Some (Demo.log_of [("c", 2)] (Some "b") true))
                     [PressKey ","; PressKey "."] None in
  let r := @show Demo.externals h 4 "/repo" None None None Demo.world in
  previousSha (store r.2 1) = Some "a" ∧ sha (store r.2 4) = "b".
Proof.
  cbv zeta.
  pose proof (@show_only_writes_nextSha Demo.externals
                (Demo.host (Some (Demo.log_of [("b", 1)] (Some "b") true))
                           (Some (Demo.log_of [("c", 2)] (Some "b") true))
                           [PressKey ","; PressKey "."] None)
                4 "/repo" None None None Demo.world (λ _ _ _, eq_refl)) as Hs.
  split.
  - by destruct (Hs 1) as (_ & _ & _ & _ & _ & _ & -> & _).
  - by destruct (Hs 4) as (-> & _).
Defined.

(** X4. With a log service that only reads, the previous-command callback
    remembers nothing: if the cached log does not resolve the previous sha
    before a press of ',', it does not resolve it after the press either,
    and the next press issues the very same query again. *)
Theorem previous_press_never_caches `{Externals} (host : Host)
    (env : NavClosure) (w : World) :
  host_keeps_store host →
  cached_previous env w = None →
  let r := previousCommand host env w in
  let r' := previousCommand host env r.2 in
  cached_previous env r.2 = None ∧
  log_queries (new_events w r.2) = [previous_query host env w] ∧
  log_queries (new_events r.2 r'.2) = [previous_query host env w].
Proof.
  intros Hk Hc. cbv zeta.
  pose proof (previousCommand_only_nextSha host env w Hk) as Ho.
  pose proof (only_nextSha_cached_previous env _ _ Ho) as Hc'.
  rewrite Hc in Hc'.
  rewrite !previousCommand_events, Hc, Hc'.
  assert (Hq : previous_query host env (previousCommand host env w).2 =
               previous_query host env w).
  { unfold previous_query.
    by destruct (Ho (cl_commit env)) as (-> & -> & _). }
  rewrite Hq. by destruct (previous_query host env w).
Qed.

Lemma previous_press_never_caches_witness :
  let h := Demo.host (Some (Demo.log_of [("b", 1)] (Some "b") true)) None [] None in
  let env := Demo.closure 0 None in
  let r := @previousCommand Demo.externals h env Demo.world in
  log_queries (new_events r.2 (@previousCommand Demo.externals h env r.2).2) =
    [("/repo", {| q_maxCount := Some 200%Z; q_reverse := None; q_ref := Some "b" |})].
Proof.
  cbv zeta.
  destruct (@previous_press_never_caches Demo.externals
              (Demo.host (Some (Demo.log_of [("b", 1)] (Some "b") true)) None [] None)
              (Demo.closure 0 None) Demo.world (λ _ _ _, eq_refl) eq_refl)
    as (_ & _ & Hq).
  exact Hq.
Defined.

(** X5. With a log service that only reads, suppose a press of '.' takes
    the fallback and finds a newer commit.  If the cached log holds the very
    object the caller passed, the next press is answered from the cache: no
    query, no write, the same target, now with the cached log.  If the
    cached log holds another object for the commit, or none, the cache still
    does not resolve the next sha and the next press asks again. *)
Theorem next_press_caches_iff_shared `{Externals} (host : Host)
    (env : NavClosure) (w : World) (n : loc) :
  host_keeps_store host →
  cached_next env w = None →
  let commit := cl_commit env in
  let a := answer host (next_query env w) w in
  first_commit a.1 = Some n →
  sha (store w n) ≠ sha (store w commit) →
  let r := nextCommand host env w in
  navigation_target r.1 = Some (sha (store w n)) ∧
  (log_commit env (cl_repoLog env) w = Some commit →
   nextCommand host env r.2 =
     (navigate (nextUri (store r.2 commit)) (cl_repoLog env)
        (Some (sha (store w n))) (cl_goBackCommand env), r.2)) ∧
  (log_commit env (cl_repoLog env) w ≠ Some commit →
   cached_next env r.2 = None ∧
   log_queries (new_events r.2 (nextCommand host env r.2).2) = [next_query env w]).
Proof.
  intros Hk Hc. cbv zeta. intros Hf Hne.
  pose proof (nextCommand_only_nextSha host env w Hk) as Ho.
  pose proof (answer_store host (next_query env w) w Hk) as Ha.
  assert (Hr : (nextCommand host env w).1 =
                 navigate (nextUri (with_nextSha (Some (sha (store w n)))
                                      (store w (cl_commit env))))
                   None (Some (sha (store w n))) (cl_goBackCommand env) ∧
               store (nextCommand host env w).2 =
                 <[cl_commit env := with_nextSha (Some (sha (store w n)))
                                      (store w (cl_commit env))]> (store w)).
  { rewrite (nextCommand_fallback host env w Hc). cbv zeta.
    destruct (answer _ _ _) as [log1 w1]. simpl in Hf, Ha. rewrite Hf, Ha.
    rewrite bool_decide_eq_true_2 by done. simpl.
    by rewrite ?Ha, ?fn_lookup_insert. }
  destruct Hr as [Hr1 Hr2].
  split; [by rewrite Hr1|]. split.
  - intros Hl. apply nextCommand_cached.
    + by rewrite (only_nextSha_log_commit env _ _ _ Ho).
    + by rewrite Hr2, fn_lookup_insert.
  - intros Hl.
    assert (Hc' : cached_next env (nextCommand host env w).2 = None).
    { unfold cached_next in *.
      rewrite (only_nextSha_log_commit env _ _ _ Ho).
      destruct (log_commit env (cl_repoLog env) w) as [l|]; [|done].
      simpl in *. rewrite Hr2, fn_lookup_insert_ne; [done|].
      intros Heq. apply Hl. by rewrite Heq. }
    split; [exact Hc'|].
    rewrite nextCommand_events, Hc'.
    assert (Hq : next_query env (nextCommand host env w).2 = next_query env w).
    { unfold next_query. by destruct (Ho (cl_commit env)) as (-> & -> & _). }
    rewrite Hq. by destruct (next_query env w).
Qed.

Lemma next_press_caches_iff_shared_witness :
  let h := Demo.host None (Some (Demo.log_of [("c", 2)] (Some "b") true)) [] None in
  let cached := Some (Demo.log_of [("b", 4)] (Some "b") true) in
  let env := Demo.closure 4 cached in
  let r := @nextCommand Demo.externals h env Demo.world in
  (@nextCommand Demo.externals h env r.2).1 =
    navigate "/repo@c" cached (Some "c") None.
Proof.
  cbv zeta.
  destruct (@next_press_caches_iff_shared Demo.externals
              (Demo.host None (Some (Demo.log_of [("c", 2)] (Some "b") true)) [] None)
              (Demo.closure 4 (Some (Demo.log_of [("b", 4)] (Some "b") true)))
              Demo.world 2 (λ _ _ _, eq_refl) eq_refl eq_refl)
    as (_ & Hshared & _).
  - discriminate.
  - by rewrite (Hshared eq_refl).
Defined.

(** X6. In the fallback of the next-command callback, when the reverse log
    starts with a commit of another sha, that sha is assigned as [nextSha]
    on the commit object the caller passed -- no other field of it and no
    other object changes -- and the command leads to that sha, carrying no
    log at all. *)
Theorem next_fallback_assigns_commit `{Externals} (host : Host)
    (env : NavClosure) (w : World) (n : loc) :
  cached_next env w = None →
  let commit := cl_commit env in
  let a := answer host (next_query env w) w in
  first_commit a.1 = Some n →
  sha (store a.2 n) ≠ sha (store a.2 commit) →
  let r := nextCommand host env w in
  let target := sha (store a.2 n) in
  store r.2 commit = with_nextSha (Some target) (store a.2 commit) ∧
  same_but_nextSha (store a.2 commit) (store r.2 commit) ∧
  (∀ l, l ≠ commit → store r.2 l = store a.2 l) ∧
  trace r.2 = trace a.2 ∧ scopes r.2 = scopes w ∧
  r.1 = navigate (nextUri (store r.2 commit)) None (Some target)
          (cl_goBackCommand env).
Proof.
  intros Hc. cbv zeta.
  rewrite (nextCommand_fallback host env w Hc). cbv zeta.
  assert (Hsc : scopes (answer host (next_query env w) w).2 = scopes w).
  { unfold answer, getLog. by destruct (host_getLog _ _ _ _). }
  destruct (answer _ _ _) as [log1 w1]. simpl in *.
  intros -> Hne. rewrite bool_decide_eq_true_2 by done. simpl.
  rewrite !fn_lookup_insert.
  repeat split; try done.
  intros l Hl. by rewrite fn_lookup_insert_ne.
Qed.

Lemma next_fallback_assigns_commit_witness :
  let h := Demo.host None (Some (Demo.log_of [("c", 2)] (Some "b") true)) [] None in
  let r := @nextCommand Demo.externals h (Demo.closure 4 None) Demo.world in
  nextSha (store r.2 4) = Some "c" ∧
  r.1 = navigate "/repo@c" None (Some "c") None.
Proof.
  cbv zeta.
  destruct (@next_fallback_assigns_commit Demo.externals
              (Demo.host None (Some (Demo.log_of [("c", 2)] (Some "b") true)) [] None)
              (Demo.closure 4 None) Demo.world 2 eq_refl eq_refl)
    as (Hs & _ & _ & _ & _ & Hr).
  - discriminate.
  - split; [exact (f_equal nextSha Hs)|exact Hr].
Defined.

(** X7. A callback never produces a command without a destination: its
    result is either [KeyNoopCommand] or a ShowQuickCommitDetails command
    that keeps the go-back command of [show] and leads to a defined sha,
    which is the previous (respectively next) sha recorded on a commit
    object of the world the callback leaves. *)
Theorem callbacks_lead_somewhere `{Externals} (host : Host)
    (env : NavClosure) (w : World) :
  (let r := previousCommand host env w in
   r.1 = KeyNoopCommand ∨
   ∃ l log target,
     previousSha (store r.2 l) = Some target ∧
     r.1 = navigate (previousUri (store r.2 l)) log (Some target)
             (cl_goBackCommand env)) ∧
  (let r := nextCommand host env w in
   r.1 = KeyNoopCommand ∨
   ∃ l log target,
     nextSha (store r.2 l) = Some target ∧
     r.1 = navigate (nextUri (store r.2 l)) log (Some target)
             (cl_goBackCommand env)).
Proof.
  split; cbv zeta.
  - destruct (cached_previous env w) as [p|] eqn:Hc.
    + unfold cached_previous in Hc.
      destruct (log_commit env (cl_repoLog env) w) as [l|] eqn:Hl; [|done].
      simpl in Hc. rewrite (previousCommand_cached host env w l p Hl Hc).
      right. by exists l, (cl_repoLog env), p.
    + rewrite (previousCommand_fallback host env w Hc).
      destruct (answer _ _ _) as [log1 w1].
      destruct (log_commit env log1 w1) as [l|]; [|by left]. cbv zeta.
      destruct (previousSha _) as [p|] eqn:Hp; [|by left].
      right. by exists l, log1, p.
  - destruct (cached_next env w) as [n|] eqn:Hc.
    + unfold cached_next in Hc.
      destruct (log_commit env (cl_repoLog env) w) as [l|] eqn:Hl; [|done].
      simpl in Hc. rewrite (nextCommand_cached host env w l n Hl Hc).
      right. by exists l, (cl_repoLog env), n.
    + rewrite (nextCommand_fallback host env w Hc). cbv zeta.
      destruct (answer _ _ _) as [log1 w1].
      destruct (first_commit log1) as [n|]; [|by left].
      case_bool_decide; [|by left].
      right. exists (cl_commit env), None, (sha (store w1 n)).
      split; [|done]. simpl. by rewrite fn_lookup_insert.
Qed.

(** ** The list of the picker *)

(** X8. The list [show] hands to the picker is, in this order: the go-back
    command if there is one; for a stash the apply, delete and show-in-view
    items, for another commit the show-in-view item and, when the repository
    has remotes, the open-in-remote item; then open-files, open-revisions,
    the two directory compares, copy-id (not for a stash), copy-message and
    changed-files; then one file item per changed file, in the order of
    [commit.files].  That is nine command items for a stash, and eight for
    another commit, or nine with remotes, also when the commit has no
    files. *)
Theorem items_layout `{Externals} (host : Host)
    (commit : loc) (uri : Uri) (goBackCommand currentCommand : option QuickPickItem)
    (repoLog : option GitLog) (w : World) :
  let stash := isStash (store w commit) in
  let cv := resolved_commit host commit w in
  let remotes := remotes_answer host commit w in
  let r := show host commit uri goBackCommand currentCommand repoLog w in
  ∃ items commands,
    shown_pickers (new_events w r.2) = [items] ∧
    items = from_option (λ back, [back]) [] goBackCommand ++ commands
            ++ map (new_CommitWithFileStatusQuickPickItem cv) (files (store w commit)) ∧
    commands =
      (if stash
       then [stashApplyItem commit cv currentCommand;
             stashDeleteItem commit cv currentCommand;
             ShowCommitInViewQuickPickItem commit]
       else ShowCommitInViewQuickPickItem commit
            :: (if decide (length remotes = 0) then []
                else [OpenRemotesCommandQuickPickItem remotes
                        (sha (store w commit)) currentCommand]))
      ++ [new_OpenCommitFilesCommandQuickPickItem cv;
          new_OpenCommitFileRevisionsCommandQuickPickItem cv;
          diffWithPreviousRevisionItem cv;
          diffWithWorkingTreeItem cv uri]
      ++ (if stash then [] else [copyShaItem cv uri])
      ++ [copyMessageItem cv uri;
          changedFilesItem commit cv uri goBackCommand repoLog] ∧
    Forall (λ it, is_file_item it = false) commands ∧
    length commands =
      (if stash then 9 else if decide (length remotes = 0) then 8 else 9) ∧
    length items =
      (match goBackCommand with Some _ => 1 | None => 0 end) + length commands
      + length (files (store w commit)).
Proof.
  cbv zeta.
  pose proof (shown_items host commit uri goBackCommand currentCommand repoLog w) as Hs.
  cbv zeta in Hs.
  destruct (resolved_commit_fields host commit w) as (Hsha & _ & Hst & _ & _ & Hf & _).
  cbv zeta in Hst, Hf, Hsha. rewrite Hst, Hf, Hsha in Hs.
  set (cv := resolved_commit host commit w) in *.
  eexists _, _. split; [exact Hs|].
  match goal with |- _ ∧ ?c = ?e ∧ _ => unify c e end.
  clear Hs.
  destruct (isStash (store w commit)); [|destruct (decide (length _ ≠ 0)) as [Hr|Hr]].
  - split; [reflexivity|]. split; [reflexivity|].
    split; [by repeat constructor|].
    split; [done|]. rewrite !length_app, length_map. simpl.
    destruct goBackCommand; simpl; lia.
  - destruct (decide (length (remotes_answer host commit w) = 0)) as [Hz|_]; [done|].
    split; [reflexivity|]. split; [reflexivity|].
    split; [by repeat constructor|].
    split; [done|]. rewrite !length_app, length_map. simpl.
    destruct goBackCommand; simpl; lia.
  - destruct (decide (length (remotes_answer host commit w) = 0)) as [_|Hz]; [|lia].
    split; [reflexivity|]. split; [reflexivity|].
    split; [by repeat constructor|].
    split; [done|]. rewrite !length_app, length_map. simpl.
    destruct goBackCommand; simpl; lia.
Qed.

(** X9. [show] asks for the remotes of the repository exactly when the
    commit is not a stash, once, with the commit's repoPath.  The
    open-in-remote item is in the list exactly when the commit is not a
    stash and the answer is not empty; it then carries the remotes, the
    commit's sha and [currentCommand]. *)
Theorem remotes_asked_iff_not_stash `{Externals} (host : Host)
    (commit : loc) (uri : Uri) (goBackCommand currentCommand : option QuickPickItem)
    (repoLog : option GitLog) (w : World) :
  let cv := store w commit in
  let remotes := remotes_answer host commit w in
  let r := show host commit uri goBackCommand currentCommand repoLog w in
  remote_queries (new_events w r.2) =
    (if isStash cv then [] else [repoPath cv]) ∧
  ∃ items,
    shown_pickers (new_events w r.2) = [items] ∧
    ∀ rs s back,
      OpenRemotesCommandQuickPickItem rs s back ∈ items ↔
      (goBackCommand = Some (OpenRemotesCommandQuickPickItem rs s back) ∨
       (isStash cv = false ∧ remotes ≠ [] ∧
        rs = remotes ∧ s = sha cv ∧ back = currentCommand)).
Proof.
  cbv zeta. split.
  - pose proof (show_run host commit uri goBackCommand currentCommand repoLog w) as Hrun.
    cbv zeta in Hrun.
    destruct Hrun as (_ & _ & _ & _ & _ & sess & Hq & Hev).
    destruct (resolved_commit_fields host commit w) as (_ & Hp & Hst & _).
    cbv zeta in Hst, Hp.
    rewrite Hev, app_comm_cons, !remote_queries_app, Hst, Hp.
    rewrite (session_events_no_remotes sess Hq).
    destruct (isStash (store w commit)); reflexivity.
  - pose proof (shown_items host commit uri goBackCommand currentCommand repoLog w) as Hs.
    cbv zeta in Hs.
    destruct (resolved_commit_fields host commit w) as (Hsha & _ & Hst & _).
    cbv zeta in Hst, Hsha. rewrite Hst, Hsha in Hs.
    eexists. split; [exact Hs|]. clear Hs.
    assert (Hfiles : ∀ cv it,
              it ∈ map (new_CommitWithFileStatusQuickPickItem cv) (files cv) →
              is_file_item it = true).
    { intros cv it (f & <- & _)%list_elem_of_In%in_map_iff. reflexivity. }
    unfold stashApplyItem, stashDeleteItem, copyShaItem, copyMessageItem,
      changedFilesItem, diffWithPreviousRevisionItem, diffWithWorkingTreeItem,
      new_OpenCommitFilesCommandQuickPickItem,
      new_OpenCommitFileRevisionsCommandQuickPickItem.
    intros rs s back. rewrite elem_of_app.
    assert (Hgb : OpenRemotesCommandQuickPickItem rs s back
                    ∈ from_option (λ b, [b]) [] goBackCommand ↔
                  goBackCommand = Some (OpenRemotesCommandQuickPickItem rs s back)).
    { destruct goBackCommand as [b|]; simpl.
      - rewrite list_elem_of_singleton. split; congruence.
      - split; [by intros ?%elem_of_nil|done]. }
    rewrite Hgb. apply or_iff_compat_l.
    destruct (isStash (store w commit)); [|destruct (decide _) as [Hr|Hr]]; simpl.
    + split; [|by intros (? & _)].
      intros Hin. exfalso.
      repeat (apply elem_of_cons in Hin as [Heq|Hin]; [discriminate Heq|]).
      apply Hfiles in Hin. discriminate Hin.
    + split.
      * intros Hin.
        apply elem_of_cons in Hin as [Heq|Hin]; [discriminate Heq|].
        apply elem_of_cons in Hin as [Heq|Hin].
        { simplify_eq. repeat split; try done. by intros Hnil; rewrite Hnil in Hr. }
        exfalso.
        repeat (apply elem_of_cons in Hin as [Heq|Hin]; [discriminate Heq|]).
        apply Hfiles in Hin. discriminate Hin.
      * intros (_ & _ & -> & -> & ->).
        apply list_elem_of_further, list_elem_of_here.
    + split.
      * intros Hin. exfalso.
        repeat (apply elem_of_cons in Hin as [Heq|Hin]; [discriminate Heq|]).
        apply Hfiles in Hin. discriminate Hin.
      * intros (_ & Hne & _). exfalso. apply Hne.
        destruct (remotes_answer host commit w); [done|]. simpl in Hr. lia.
Qed.

(** ** The 'right' key *)

(** X10. While the picker is open, highlighting an item of the list binds
    the 'right' key of the scope to that item, whatever happened before.  If
    the item is a file item and 'right' is pressed next, the file is
    diffed with its previous revision (keeping the focus, not as a preview)
    when the item's commit has a previous sha, and the press is left to the
    inherited handler when it has none; neither the store nor the log
    service is touched. *)
Theorem right_key_follows_highlight `{Externals} (host : Host)
    (scope : nat) (items : list QuickPickItem) (actions : list UserAction)
    (w : World) (i : nat)
    (uri : Uri) (label description : string) (c : GitLogCommit) (st : GitFileStatus) :
  is_Some (scope_mapping scope w) →
  items !! i = Some (CommitWithFileStatusQuickPickItem uri label description c st) →
  let it := CommitWithFileStatusQuickPickItem uri label description c st in
  let w1 := (session host scope items (actions ++ [Highlight i]) w).2 in
  let w2 := (session host scope items (actions ++ [Highlight i; PressKey "right"]) w).2 in
  scope_binding scope "right" w1 = Some (StaticCommand (KeyItem it)) ∧
  store w2 = store w1 ∧
  trace w2 =
    trace w1 ++
    [EvKeyPressed "right";
     match previousSha c with
     | Some _ =>
         EvExecuteCommand DiffWithPrevious
           [ArgUri (toGitUri c); DiffWithPreviousCommandArgs c true false]
     | None => EvSuperOnDidPressKey it "right"
     end].
Proof.
  intros Hopen Hi. cbv zeta.
  change [Highlight i; PressKey "right"] with ([Highlight i] ++ [PressKey "right"]).
  rewrite app_assoc, (session_app host scope items (actions ++ [Highlight i])).
  rewrite (session_app host scope items actions).
  pose proof (session_open host scope scope items actions w Hopen) as Ho.
  set (w0 := (session host scope items actions w).2) in *.
  simpl. rewrite Hi. unfold bind.
  destruct (onDidSelectItem_binds host scope
              (CommitWithFileStatusQuickPickItem uri label description c st) w0 Ho)
    as [Hb _].
  cbv zeta in Hb.
  destruct (onDidSelectItem host scope _ w0) as [[] w1]. simpl in Hb |- *.
  split; [exact Hb|].
  unfold pressKey. run_m.
  assert (Hb' : scope_binding scope "right" (add_event (EvKeyPressed "right") w1) =
                Some (StaticCommand
                        (KeyItem (CommitWithFileStatusQuickPickItem uri label
                                    description c st)))) by exact Hb.
  rewrite Hb'. simpl.
  destruct (previousSha c); simpl; by rewrite <-app_assoc.
Qed.

Lemma right_key_follows_highlight_witness :
  let w2 := (@session Demo.externals (Demo.host None None [] None) 0
               DemoSession.items [PressKey "left"; Highlight 1; PressKey "right"]
               DemoSession.world).2 in
  ∃ evs,
    trace w2 =
      evs ++
      [EvKeyPressed "right";
       EvExecuteCommand DiffWithPrevious
         [ArgUri "/repo";
          DiffWithPreviousCommandArgs (Demo.commit_of "b" false (Some "a") None)
            true false]].
Proof.
  cbv zeta.
  destruct (@right_key_follows_highlight Demo.externals (Demo.host None None [] None)
              0 DemoSession.items [PressKey "left"] DemoSession.world 1
              "/repo/a.ts@b" "M a.ts" "a.ts"
              (Demo.commit_of "b" false (Some "a") None) "M")
    as (_ & _ & Ht).
  - by eexists.
  - reflexivity.
  - eexists. exact Ht.
Defined.

(** ** Scopes *)

(** X11. [show] leaves the keyboard as it found it: when it returns, every
    scope that was open before is exactly as it was, and the one scope it
    opened itself is disposed, whatever the user highlighted or pressed. *)
Theorem show_restores_scopes `{Externals} (host : Host)
    (commit : loc) (uri : Uri) (goBackCommand currentCommand : option QuickPickItem)
    (repoLog : option GitLog) (w : World) :
  let r := show host commit uri goBackCommand currentCommand repoLog w in
  scopes r.2 = scopes w ++ [None] ∧
  (∀ scope : nat, (scope < length (scopes w))%nat →
                  scope_mapping scope r.2 = scope_mapping scope w) ∧
  (∀ scope : nat, (length (scopes w) ≤ scope)%nat →
                  scope_mapping scope r.2 = None).
Proof.
  cbv zeta.
  destruct (show_world host commit uri goBackCommand currentCommand repoLog w)
    as (_ & _ & _ & Hs).
  cbv zeta in Hs. rewrite Hs. cbn [snd scopes set_scopes add_event]. clear Hs.
  match goal with
  | |- context [session host ?sc ?its ?acts ?w1] =>
      destruct (session_other_scopes host sc its acts w1) as [f Hf];
      rewrite Hf
  end.
  cbn [scopes add_event set_scopes].
  assert (Hend : ∀ x : option (gmap string KeyBinding),
            <[length (scopes w) := None]>
              (alter f (length (scopes w)) (scopes w ++ [x])) = scopes w ++ [None]).
  { intros x.
    replace (length (scopes w)) with (length (scopes w) + 0) at 1 2 by lia.
    by rewrite alter_app_r, insert_app_r. }
  rewrite Hend. split; [done|]. split.
  - intros scope Hlt. unfold scope_mapping. cbn [scopes set_scopes].
    by rewrite lookup_app_l.
  - intros scope Hge. unfold scope_mapping. cbn [scopes set_scopes].
    destruct (decide (scope = length (scopes w))) as [->|Hne].
    + by rewrite list_lookup_middle.
    + rewrite lookup_ge_None_2; [done|]. rewrite length_app. simpl. lia.
Qed.

(** ** The open-all items and [splice] *)

(** X12. The two open-all items carry one uri per changed file, in the order
    of [commit.files].  Open Revisions opens a deleted file (status 'D') at
    the commit's previous file sha and every other file at the commit's own
    sha, which is the revision the file's own item opens. *)
Theorem open_all_items_follow_files `{Externals}
    (cv : GitLogCommit) (i : nat) (f : GitFile) :
  files cv !! i = Some f →
  let openFiles := new_OpenCommitFilesCommandQuickPickItem cv in
  let openRevisions := new_OpenCommitFileRevisionsCommandQuickPickItem cv in
  length (open_all_uris openFiles) = length (files cv) ∧
  length (open_all_uris openRevisions) = length (files cv) ∧
  open_all_uris openFiles !! i = Some (GitUri_fromFile f (repoPath cv)) ∧
  (status f = "D" →
   open_all_uris openRevisions !! i =
     Some (GitUri_toRevisionUri (previousFileSha cv) f (repoPath cv))) ∧
  (status f ≠ "D" →
   open_all_uris openRevisions !! i =
     file_item_uri (new_CommitWithFileStatusQuickPickItem cv f)).
Proof.
  intros Hf. cbv zeta.
  assert (Hmap : ∀ (g : GitFile → Uri) l,
            Arrays_filterMap l (λ x, Some (g x)) = g <$> l).
  { intros g l. unfold Arrays_filterMap.
    induction l as [|x l IH]; [done|]. by f_equal/=. }
  unfold new_OpenCommitFilesCommandQuickPickItem,
    new_OpenCommitFileRevisionsCommandQuickPickItem. simpl.
  rewrite !Hmap, !length_fmap, !list_lookup_fmap, Hf. simpl.
  repeat split; try done.
  - intros Hd. by rewrite decide_True.
  - intros Hd. by rewrite decide_False.
Qed.

Lemma open_all_items_follow_files_witness :
  let cv := {| sha := "b"; repoPath := "/repo"; isStash := false; author := "ann";
               message := "fix";
               files := [ {| fileName := "a.ts"; status := "M" |};
                          {| fileName := "old.ts"; status := "D" |} ];
               previousSha := Some "a"; nextSha := None; previousFileSha := "a" |} in
  open_all_uris (@new_OpenCommitFileRevisionsCommandQuickPickItem Demo.externals cv) !! 1
    = Some "/repo/old.ts@a".
Proof.
  cbv zeta.
  destruct (@open_all_items_follow_files Demo.externals
              {| sha := "b"; repoPath := "/repo"; isStash := false; author := "ann";
                 message := "fix";
                 files := [ {| fileName := "a.ts"; status := "M" |};
                            {| fileName := "old.ts"; status := "D" |} ];
                 previousSha := Some "a"; nextSha := None; previousFileSha := "a" |}
              1 {| fileName := "old.ts"; status := "D" |} eq_refl)
    as (_ & _ & _ & Hd & _).
  exact (Hd eq_refl).
Defined.

(** X13. [items.splice(index, 0, x)] makes the list one longer, puts [x] at
    [index] -- or at the end when [index] is beyond it -- and keeps every
    other item in order: those before stay where they are, those after move
    one place down. *)
Theorem splice_insert_spec {A} (index : nat) (x : A) (items : list A) :
  let at_ := index `min` length items in
  length (splice_insert index x items) = S (length items) ∧
  splice_insert index x items !! at_ = Some x ∧
  (∀ j, (j < at_)%nat → splice_insert index x items !! j = items !! j) ∧
  (∀ j, (at_ ≤ j)%nat → splice_insert index x items !! S j = items !! j).
Proof.
  cbv zeta. unfold splice_insert.
  assert (Hlen : length (take index items) = index `min` length items)
    by apply length_take.
  split; [|split; [|split]].
  - rewrite length_app. simpl. rewrite length_take, length_drop. lia.
  - rewrite <-Hlen. by rewrite list_lookup_middle.
  - intros j Hj. rewrite lookup_app_l by lia. rewrite lookup_take_lt; [done|lia].
  - intros j Hj. rewrite lookup_app_r by lia. rewrite Hlen.
    replace (S j - index `min` length items)
      with (S (j - index `min` length items)) by lia.
    simpl. rewrite lookup_drop.
    destruct (decide (index ≤ length items)%nat) as [Hle|Hgt].
    + f_equal. lia.
    + rewrite !lookup_ge_None_2; [done|lia|lia].
Qed.

(** ** One press of a navigation key *)

(** X14. Take a commit that is not a stash, shown without the full history.
    If all the user does in the picker is press ',' once, [show] asks the
    log service exactly what the previous-command callback asks for the
    commit, the repoLog and the go-back command [show] was given: the
    fallback query when the cached log does not resolve the previous sha,
    nothing otherwise.  Likewise for '.' and the next-command callback. *)
Theorem navigation_key_runs_callback `{Externals} (host : Host)
    (commit : loc) (uri : Uri) (goBackCommand currentCommand : option QuickPickItem)
    (repoLog : option GitLog) (w : World) :
  isStash (store w commit) = false →
  (repoLog = None ∨
   ∃ lg, repoLog = Some lg ∧ (truncated lg = true ∨ log_sha lg ≠ None)) →
  let env := {| cl_commit := commit; cl_repoLog := repoLog;
                cl_goBackCommand := goBackCommand |} in
  let actions := show_actions host commit uri goBackCommand currentCommand repoLog w in
  let r := show host commit uri goBackCommand currentCommand repoLog w in
  (actions = [PressKey ","] →
   log_queries (new_events w r.2) =
     match cached_previous env w with
     | None => [previous_query host env w]
     | Some _ => []
     end) ∧
  (actions = [PressKey "."] →
   log_queries (new_events w r.2) =
     match cached_next env w with
     | None => [next_query env w]
     | Some _ => []
     end).
Proof.
  intros Hstash Hlog. cbv zeta.
  pose proof (show_queries host commit uri goBackCommand currentCommand repoLog w) as Hq.
  destruct (show_until_open _ _ _ _ _ _ _) as [[[scope items] opts] w1].
  cbv zeta in Hq. destruct Hq as (Hq & Hst & Hm).
  destruct (resolved_commit_fields host commit w) as (_ & _ & Hs & _).
  cbv zeta in Hs.
  assert (Hf : full_history repoLog = false).
  { destruct Hlog as [->|(lg & -> & [Ht|Hsha])]; simpl; [done| |].
    - by rewrite Ht.
    - rewrite bool_decide_eq_false_2 by done. apply andb_false_r. }
  assert (Hnav : navigationCommands commit (resolved_commit host commit w)
                   goBackCommand repoLog =
                 (Some (PreviousCallback
                          {| cl_commit := commit; cl_repoLog := repoLog;
                             cl_goBackCommand := goBackCommand |}),
                  Some (NextCallback
                          {| cl_commit := commit; cl_repoLog := repoLog;
                             cl_goBackCommand := goBackCommand |}))).
  { unfold navigationCommands. by rewrite Hs, Hstash, Hf. }
  rewrite Hnav in Hm. cbn [fst snd] in Hm.
  set (env := {| cl_commit := commit; cl_repoLog := repoLog;
                 cl_goBackCommand := goBackCommand |}) in *.
  assert (Hsame : ∀ key,
            cached_previous env (add_event (EvKeyPressed key) w1) = cached_previous env w ∧
            cached_next env (add_event (EvKeyPressed key) w1) = cached_next env w ∧
            previous_query host env (add_event (EvKeyPressed key) w1) =
              previous_query host env w ∧
            next_query env (add_event (EvKeyPressed key) w1) = next_query env w).
  { intros key. apply callbacks_see_same. intros l. cbn [store add_event].
    rewrite Hst. apply resolved_adjacency. }
  split; intros Ha; rewrite Ha in Hq; rewrite Hq; simpl; unfold bind.
  - assert (Hb : scope_binding scope "," w1 = Some (PreviousCallback env)).
    { unfold scope_binding. rewrite Hm. simpl. apply keyMapping_comma. }
    pose proof (pressKey_previous host scope "," env w1 Hb) as Hp. cbv zeta in Hp.
    destruct (pressKey host scope "," w1) as [[] w2]. simpl in *.
    rewrite Hp, previousCommand_events.
    destruct (Hsame ",") as (-> & _ & -> & _).
    destruct (cached_previous env w); [done|].
    by destruct (previous_query host env w).
  - assert (Hb : scope_binding scope "." w1 = Some (NextCallback env)).
    { unfold scope_binding. rewrite Hm. simpl. apply keyMapping_period. }
    pose proof (pressKey_next host scope "." env w1 Hb) as Hp. cbv zeta in Hp.
    destruct (pressKey host scope "." w1) as [[] w2]. simpl in *.
    rewrite Hp, nextCommand_events.
    destruct (Hsame ".") as (_ & -> & _ & ->).
    destruct (cached_next env w); [done|].
    by destruct (next_query env w).
Qed.

Lemma navigation_key_runs_callback_witness :
  let h := Demo.host (Some (Demo.log_of [("b", 1)] (Some "b") true)) None
             [PressKey ","] None in
  let r := @show Demo.externals h 4 "/repo" None None None Demo.world in
  log_queries (new_events Demo.world r.2) =
    [("/repo", {| q_maxCount := Some 200%Z; q_reverse := None; q_ref := Some "b" |})].
Proof.
  cbv zeta.
  destruct (@navigation_key_runs_callback Demo.externals
              (Demo.host (Some (Demo.log_of [("b", 1)] (Some "b") true)) None
                 [PressKey ","] None)
              4 "/repo" None None None Demo.world eq_refl (or_introl eq_refl))
    as [Hc _].
  exact (Hc eq_refl).
Defined.
